(** * BinFHEContext: the control layer of the Boolean-circuit FHE context

    A shallow embedding of [src/binfhe/lib/binfhecontext.cpp].  The context
    class owns the crypto parameters, the bootstrapping-key map indexed by
    gadget base and the active bootstrapping key; the lattice arithmetic
    itself (key generation, key switching, bootstrapping, NOT) lives in the
    scheme objects the context delegates to, which enter this development
    as the fields of a record of external operations.

    Unsigned machine integers ([uint32_t], [usint], [NativeInteger]) are
    binary naturals [N] with the wrap-around written out where the source
    narrows or multiplies; the one signed argument ([int64_t N]) is a [Z]. *)

From Stdlib Require Import ZArith NArith List Lia Bool QArith.
From stdpp Require Import base option list gmap sorting.

Local Open Scope N_scope.
Set Warnings "-clear-no-such-hyp".

(** ** Machine integers *)

Module Native.

Definition two32 : N := 2 ^ 32.
Definition two64 : N := 2 ^ 64.

(** Narrowing conversion to [uint32_t] / [usint]. *)
Definition to_uint32 (x : N) : N := x mod two32.

(** Narrowing of a signed 64-bit value to [uint32_t]. *)
Definition Z_to_uint32 (x : Z) : N := Z.to_N (x mod Z.of_N two32).

(** [NativeInteger::operator*]: the product of the two 64-bit limbs. *)
Definition mul (a b : N) : N := (a * b) mod two64.

(** [uint32_t] multiplication. *)
Definition mul32 (a b : N) : N := (a * b) mod two32.

End Native.

(** ** Errors

    Every [OPENFHE_THROW] site of the file is one constructor, named after
    the error kind of the design document; [exception_class] records the
    C++ exception type thrown there. *)

Inductive CppException : Set :=
  | not_implemented_error
  | config_error
  | math_error.

Inductive Error : Set :=
  | UnsupportedMethod      (* "CGGI is the only supported method" *)
  | UnsupportedProfile     (* "STD128 and TOY are the only supported sets" *)
  | ModulusOutOfRange      (* "logQ > 29 / logQ < 11 is not supported" *)
  | DimensionMismatch      (* "Ciphertext dimension and modulus are not large N and Q" *)
  | InvalidModulus         (* "Only support plaintext space to be power-of-two." *)
  | FunctionRangeError     (* "input function should output in Z_{p_output}." *)
  | DivisionByZero         (* NativeInteger division by a zero divisor *)
  | NullDereference        (* a member call through a shared pointer not yet set *)
  | EngineFailure (code : N). (* an exception leaving one of the scheme objects *)

Definition exception_class (e : Error) : option CppException :=
  match e with
  | UnsupportedMethod | UnsupportedProfile | ModulusOutOfRange
  | InvalidModulus | FunctionRangeError => Some not_implemented_error
  | DimensionMismatch => Some config_error
  | DivisionByZero => Some math_error
  | NullDereference | EngineFailure _ => None
  end.

Inductive Exc (A : Type) : Type :=
  | Ok (a : A)
  | Throw (e : Error).
Arguments Ok {A} a.
Arguments Throw {A} e.

(** Sequencing of fallible computations: the first exception propagates. *)
#[global] Instance Exc_bind : MBind Exc := λ A B k x,
  match x with
  | Ok a => k a
  | Throw e => Throw e
  end.
#[global] Instance Exc_ret : MRet Exc := λ A a, Ok a.

(** Modelled from the spec: [NativeInteger::operator/] belongs to the
    arithmetic engine the design document leaves out of scope and is
    declared outside this file; it is the integer quotient, and a zero
    divisor is an error rather than a value. *)
Definition NativeInteger_div (a b : N) : Exc N :=
  if b =? 0 then Throw DivisionByZero else Ok (a / b).

(** An exact power of two. *)
Definition power_of_two (p : N) : Prop := ∃ k, p = 2 ^ k.

(** ** Enumerations *)

(** The parameter sets listed in the catalogue of the named-profile overload. *)
Inductive BINFHE_PARAMSET : Set :=
  | TOY | MEDIUM | STD128_LMKCDEY | STD128_AP | STD128_APOPT | STD128
  | STD128_OPT | STD192 | STD192_OPT | STD256 | STD256_OPT | STD128Q
  | STD128Q_OPT | STD192Q | STD192Q_OPT | STD256Q | STD256Q_OPT
  | SIGNED_MOD_TEST.

Definition BINFHE_PARAMSET_eqb (a b : BINFHE_PARAMSET) : bool :=
  match a, b with
  | TOY, TOY | MEDIUM, MEDIUM | STD128_LMKCDEY, STD128_LMKCDEY
  | STD128_AP, STD128_AP | STD128_APOPT, STD128_APOPT | STD128, STD128
  | STD128_OPT, STD128_OPT | STD192, STD192 | STD192_OPT, STD192_OPT
  | STD256, STD256 | STD256_OPT, STD256_OPT | STD128Q, STD128Q
  | STD128Q_OPT, STD128Q_OPT | STD192Q, STD192Q | STD192Q_OPT, STD192Q_OPT
  | STD256Q, STD256Q | STD256Q_OPT, STD256Q_OPT
  | SIGNED_MOD_TEST, SIGNED_MOD_TEST => true
  | _, _ => false
  end.

(** Modelled from the spec: the enumeration of bootstrapping methods is
    declared in a header outside this file, which names only [GINX] (the
    CGGI-style method); every other enumerator is [other_method]. *)
Inductive BINFHE_METHOD : Set :=
  | GINX
  | other_method (tag : N).

Definition BINFHE_METHOD_eqb (a b : BINFHE_METHOD) : bool :=
  match a, b with
  | GINX, GINX => true
  | other_method s, other_method t => s =? t
  | _, _ => false
  end.

(** The secret-key distributions, lattice distribution types and security
    levels this file names. *)
Inductive SECRET_KEY_DIST : Set := GAUSSIAN | UNIFORM_TERNARY.
Inductive DistributionType : Set := HEStd_ternary.
Inductive SecurityLevel : Set := HEStd_128_classic.

(** ** Parameters

    The three parameter classes are declared in headers outside this file;
    their fields follow the data model of the design document and the
    constructor calls made here. *)

(** Modelled from the spec: LWE parameters are the lattice dimension [n],
    the ring dimension [N], the ciphertext modulus [q], the large modulus
    [Q], the key-switch modulus [qKS], the noise standard deviation, the
    key-switch base and the secret-key distribution. *)
Record LWECryptoParams : Type := mkLWECryptoParams {
  lwe_n : N;
  lwe_N : N;
  lwe_q : N;
  lwe_Q : N;
  lwe_qKS : N;
  lwe_std : Q;
  lwe_baseKS : N;
  lwe_keyDist : SECRET_KEY_DIST
}.

(** Modelled from the spec: RingGSW parameters are the ring dimension, the
    modulus [Q], the plaintext-domain modulus [q], the gadget base, the
    refresh-key base, the method tag, the noise standard deviation, the
    secret-key distribution, whether the multi-base optimization is enabled
    (the last constructor argument) and the mapping from alternate gadget
    bases to their gadget power vectors. *)
Record RingGSWCryptoParams : Type := mkRingGSWCryptoParams {
  rgsw_N : N;
  rgsw_Q : N;
  rgsw_q : N;
  rgsw_baseG : N;
  rgsw_baseR : N;
  rgsw_method : BINFHE_METHOD;
  rgsw_std : Q;
  rgsw_keyDist : SECRET_KEY_DIST;
  rgsw_signEval : bool;
  rgsw_Gpower_map : gmap N (list N)
}.

Definition GetBaseG (p : RingGSWCryptoParams) : N := rgsw_baseG p.
Definition GetGPowerMap (p : RingGSWCryptoParams) : gmap N (list N) :=
  rgsw_Gpower_map p.

(** Modelled from the spec: [Change_BaseG] makes the given base the active
    gadget base of the parameters and leaves their other fields alone. *)
Definition Change_BaseG (BaseG : N) (p : RingGSWCryptoParams) : RingGSWCryptoParams :=
  {| rgsw_N := rgsw_N p; rgsw_Q := rgsw_Q p; rgsw_q := rgsw_q p;
     rgsw_baseG := BaseG;
     rgsw_baseR := rgsw_baseR p; rgsw_method := rgsw_method p;
     rgsw_std := rgsw_std p; rgsw_keyDist := rgsw_keyDist p;
     rgsw_signEval := rgsw_signEval p;
     rgsw_Gpower_map := rgsw_Gpower_map p |}.

(** Modelled from the spec: combined crypto parameters pair one LWE and one
    RingGSW parameter object. *)
Record BinFHECryptoParams : Type := mkBinFHECryptoParams {
  GetLWEParams : LWECryptoParams;
  GetRingGSWParams : RingGSWCryptoParams
}.

(** [RGSWParams->Change_BaseG(b)] through the shared pointer held by the
    combined parameters. *)
Definition params_Change_BaseG (b : N) (P : BinFHECryptoParams) : BinFHECryptoParams :=
  {| GetLWEParams := GetLWEParams P;
     GetRingGSWParams := Change_BaseG b (GetRingGSWParams P) |}.

(** Modelled from the spec: the scheme object is constructed from the
    bootstrapping method tag. *)
Record BinFHEScheme : Type := mkBinFHEScheme {
  scheme_method : BINFHE_METHOD
}.

(** ** Ciphertexts *)

(** Modelled from the spec: an LWE ciphertext carries its own dimension
    (the length of its vector) and its modulus. *)
Record LWECiphertext : Type := mkLWECiphertext {
  ct_a : list N;
  ct_b : N;
  ct_modulus : N
}.

Definition GetLength (ct : LWECiphertext) : N := N.of_nat (length (ct_a ct)).
Definition GetModulus (ct : LWECiphertext) : N := ct_modulus ct.

(** ** The scheme objects the context delegates to

    Key material is opaque to the context: it is produced and consumed by
    the scheme objects only.  An [Engine] packs the key types with the
    operations of [BinFHEScheme], [LWEEncryptionScheme], [StdLatticeParm]
    and the number-theory utilities that this file calls and does not
    define.  An operation that can throw returns an [Exc]. *)

Record Engine : Type := mkEngine {
  LWEPrivateKey : Type;
  LWESwitchingKey : Type;
  RingGSWBTKey : Type;
  KEYGEN_MODE : Type;
  (** the value-initialised bootstrapping key, which [std::map::operator[]]
      inserts under a missing base *)
  RingGSWBTKey_default : RingGSWBTKey;
  FindRingDim : DistributionType → SecurityLevel → N → N;
  FirstPrime : N → N → N;
  PreviousPrime : N → N → N;
  (** the default secret-key distribution of the [LWECryptoParams] constructor *)
  LWE_default_keyDist : SECRET_KEY_DIST;
  (** the gadget-power map the [RingGSWCryptoParams] constructor precomputes
      from (Q, baseG, signEval) *)
  PreCompute_Gpower_map : N → N → bool → gmap N (list N);
  scheme_KeyGen :
    BinFHEScheme → BinFHECryptoParams → LWEPrivateKey → KEYGEN_MODE → Exc RingGSWBTKey;
  scheme_Bootstrap :
    BinFHEScheme → BinFHECryptoParams → RingGSWBTKey → LWECiphertext → Exc LWECiphertext;
  scheme_EvalNOT :
    BinFHEScheme → BinFHECryptoParams → LWECiphertext → Exc LWECiphertext;
  LWE_SwitchCTtoqn :
    LWECryptoParams → option LWESwitchingKey → LWECiphertext → Exc LWECiphertext
}.

(** ** The context *)

Section Context.

Variable E : Engine.

Definition make_LWECryptoParams (n ringN q modQ q_KS : N) (std : Q) (baseKS : N)
  : LWECryptoParams :=
  mkLWECryptoParams n ringN q modQ q_KS std baseKS (LWE_default_keyDist E).

Definition make_RingGSWCryptoParams (ringN modQ q baseG baseR : N)
    (method : BINFHE_METHOD) (std : Q) (keyDist : SECRET_KEY_DIST)
    (signEval : bool) : RingGSWCryptoParams :=
  mkRingGSWCryptoParams ringN modQ q baseG baseR method std keyDist signEval
    (PreCompute_Gpower_map E modQ baseG signEval).

(** The data members of [BinFHEContext].  The two shared pointers are
    null until one of the [GenerateBinFHEContext] overloads has run. *)
Record BinFHEContext : Type := mkBinFHEContext {
  m_params : option BinFHECryptoParams;
  m_binfhescheme : option BinFHEScheme;
  m_BTKey : RingGSWBTKey E;
  m_BTKey_map : gmap N (RingGSWBTKey E);
  m_timeOptimization : bool
}.

Definition set_params (P : option BinFHECryptoParams) (c : BinFHEContext) :=
  mkBinFHEContext P (m_binfhescheme c) (m_BTKey c) (m_BTKey_map c)
    (m_timeOptimization c).
Definition set_binfhescheme (S : option BinFHEScheme) (c : BinFHEContext) :=
  mkBinFHEContext (m_params c) S (m_BTKey c) (m_BTKey_map c)
    (m_timeOptimization c).
Definition set_BTKey (k : RingGSWBTKey E) (c : BinFHEContext) :=
  mkBinFHEContext (m_params c) (m_binfhescheme c) k (m_BTKey_map c)
    (m_timeOptimization c).
Definition set_BTKey_map (m : gmap N (RingGSWBTKey E)) (c : BinFHEContext) :=
  mkBinFHEContext (m_params c) (m_binfhescheme c) (m_BTKey c) m
    (m_timeOptimization c).
Definition set_timeOptimization (b : bool) (c : BinFHEContext) :=
  mkBinFHEContext (m_params c) (m_binfhescheme c) (m_BTKey c) (m_BTKey_map c) b.

(** Dereferencing a shared pointer. *)
Definition deref {A} (p : option A) : Exc A :=
  match p with
  | Some a => Ok a
  | None => Throw NullDereference
  end.

(** *** Member functions that assign to the context

    A non-const member function is a state transformer that may throw;
    as in C++, what was assigned before the exception stays assigned. *)
Definition Method (A : Type) : Type := BinFHEContext → BinFHEContext * Exc A.

Definition ret {A} (a : A) : Method A := λ c, (c, Ok a).
Definition bind {A B} (m : Method A) (k : A → Method B) : Method B :=
  λ c, match m c with
       | (c', Ok a) => k a c'
       | (c', Throw e) => (c', Throw e)
       end.
Definition gets {A} (f : BinFHEContext → A) : Method A := λ c, (c, Ok (f c)).
Definition modify (f : BinFHEContext → BinFHEContext) : Method unit :=
  λ c, (f c, Ok tt).
Definition lift {A} (x : Exc A) : Method A := λ c, (c, x).

Notation "'do' x <- m ; k" := (bind m (λ x, k))
  (at level 10, x name, m at level 100, k at level 200).
Notation "m ;; k" := (bind m (λ _, k))
  (at level 100, k at level 200, right associativity).

(** [m_binfhescheme->KeyGen(m_params, sk, keygenMode)] *)
Definition call_KeyGen (sk : LWEPrivateKey E) (keygenMode : KEYGEN_MODE E)
  : Method (RingGSWBTKey E) :=
  λ c, (c, S ← deref (m_binfhescheme c);
           P ← deref (m_params c);
           scheme_KeyGen E S P sk keygenMode).

(** [RGSWParams->Change_BaseG(b)]: the parameters are shared, so the
    change is seen through [m_params]. *)
Definition RGSWParams_Change_BaseG (b : N) : Method unit :=
  λ c, match m_params c with
       | Some P => (set_params (Some (params_Change_BaseG b P)) c, Ok tt)
       | None => (c, Throw NullDereference)
       end.

(** [m_BTKey_map[b] = k] *)
Definition BTKey_map_assign (b : N) (k : RingGSWBTKey E) : Method unit :=
  modify (λ c, set_BTKey_map (<[b := k]> (m_BTKey_map c)) c).

(** [m_BTKey_map[b]] as an rvalue: [std::map::operator[]] inserts a
    value-initialised key when the base has no entry. *)
Definition BTKey_map_subscript (b : N) : Method (RingGSWBTKey E) :=
  λ c, match m_BTKey_map c !! b with
       | Some k => (c, Ok k)
       | None =>
           (set_BTKey_map (<[b := RingGSWBTKey_default E]> (m_BTKey_map c)) c,
            Ok (RingGSWBTKey_default E))
       end.

(** Iteration order of a [std::map]: ascending keys. *)
Definition ascending_keys {A} (m : gmap N A) : list N :=
  merge_sort N.le (elements (dom m)).

(** The body of the [for] loop of [BTKeyGen] over the remaining bases. *)
Fixpoint BTKeyGen_sweep (bases : list N) (sk : LWEPrivateKey E)
    (keygenMode : KEYGEN_MODE E) : Method unit :=
  match bases with
  | [] => ret tt
  | b :: rest =>
      RGSWParams_Change_BaseG b ;;
      do k <- call_KeyGen sk keygenMode;
      BTKey_map_assign b k ;;
      BTKeyGen_sweep rest sk keygenMode
  end.

(** The last statement of [BTKeyGen]: the active key becomes the map entry
    under [temp] when the map has entries, and a newly generated key,
    stored under [temp], when it has none. *)
Definition BTKeyGen_activate (temp : N) (sk : LWEPrivateKey E)
    (keygenMode : KEYGEN_MODE E) : Method unit :=
  do map_size <- gets (λ c, size (m_BTKey_map c));
  if negb (Nat.eqb map_size 0) then
    do k <- BTKey_map_subscript temp;
    modify (set_BTKey k)
  else
    do k <- call_KeyGen sk keygenMode;
    modify (set_BTKey k) ;;
    BTKey_map_assign temp k.

Definition BTKeyGen (sk : LWEPrivateKey E) (keygenMode : KEYGEN_MODE E)
  : Method unit :=
  do P <- (λ c, (c, deref (m_params c)));
  let RGSWParams := GetRingGSWParams P in
  let temp := GetBaseG RGSWParams in
  do timeOpt <- gets m_timeOptimization;
  (if timeOpt then
     let gpowermap := GetGPowerMap RGSWParams in
     BTKeyGen_sweep (ascending_keys gpowermap) sk keygenMode ;;
     RGSWParams_Change_BaseG temp
   else ret tt) ;;
  BTKeyGen_activate temp sk keygenMode.

(** *** Parameter generation *)

(** The explicit overload: no validation, the two parameter objects are
    built from the arguments. *)
Definition GenerateBinFHEContext_explicit (n ringN q modQ : N) (std : Q)
    (baseKS baseG baseR : N) (method : BINFHE_METHOD) : Method unit :=
  let lweparams := make_LWECryptoParams n ringN q modQ modQ std baseKS in
  let rgswparams :=
    make_RingGSWCryptoParams ringN modQ q baseG baseR method std
      UNIFORM_TERNARY true in
  modify (set_params (Some (mkBinFHECryptoParams lweparams rgswparams))) ;;
  modify (set_binfhescheme (Some (mkBinFHEScheme method))).

(** The range table of the security-profile overload: the gadget base and
    the bit length [logQprime] of the prime that is searched for. *)
Definition select_baseG_logQprime (logQ : N) : N * N :=
  let logQprime := 54 in
  if 25 <? logQ then (N.shiftl 1 14, logQprime)
  else if 16 <? logQ then (N.shiftl 1 18, logQprime)
  else if 11 <? logQ then (N.shiftl 1 27, logQprime)
  else (N.shiftl 1 5, 27).

(** The security-profile overload
    [GenerateBinFHEContext(set, arbFunc, logQ, N, method, timeOptimization)]. *)
Definition GenerateBinFHEContext (set : BINFHE_PARAMSET) (arbFunc : bool)
    (logQ : N) (dimN : Z) (method : BINFHE_METHOD) (timeOptimization : bool)
  : Method unit :=
  if negb (BINFHE_METHOD_eqb GINX method) then lift (Throw UnsupportedMethod)
  else if negb (BINFHE_PARAMSET_eqb set STD128) && negb (BINFHE_PARAMSET_eqb set TOY)
  then lift (Throw UnsupportedProfile)
  else if 29 <? logQ then lift (Throw ModulusOutOfRange)
  else if logQ <? 11 then lift (Throw ModulusOutOfRange)
  else
    let '(baseG, logQprime) := select_baseG_logQprime logQ in
    modify (set_timeOptimization timeOptimization) ;;
    let sl := HEStd_128_classic in
    let ringDim0 := FindRingDim E HEStd_ternary sl logQprime in
    let ringDim :=
      if (Z.of_N ringDim0 <=? dimN)%Z then Native.Z_to_uint32 dimN else ringDim0 in
    let modQ :=
      PreviousPrime E (FirstPrime E logQprime (Native.mul32 2 ringDim))
        (Native.mul32 2 ringDim) in
    let q := if arbFunc then ringDim else Native.mul32 2 ringDim in
    let qKS := N.shiftl (N.shiftl 1 30) 5 in
    let n := if BINFHE_PARAMSET_eqb set TOY then 32 else 1305 in
    let lweparams := make_LWECryptoParams n ringDim q modQ qKS (319 # 100) 32 in
    let rgswparams :=
      make_RingGSWCryptoParams ringDim modQ q baseG 23 method (319 # 100)
        UNIFORM_TERNARY (negb (logQ =? 11) && timeOptimization) in
    modify (set_params (Some (mkBinFHECryptoParams lweparams rgswparams))) ;;
    modify (set_binfhescheme (Some (mkBinFHEScheme method))).

(** The parameters a successful call of the security-profile overload
    installs, written out as a function of its arguments. *)
Definition profile_params (set : BINFHE_PARAMSET) (arbFunc : bool) (logQ : N) (dimN : Z)
    (timeOptimization : bool) : BinFHECryptoParams :=
  let baseG := fst (select_baseG_logQprime logQ) in
  let logQprime := snd (select_baseG_logQprime logQ) in
  let ringDim0 := FindRingDim E HEStd_ternary HEStd_128_classic logQprime in
  let ringDim :=
    if (Z.of_N ringDim0 <=? dimN)%Z then Native.Z_to_uint32 dimN else ringDim0 in
  let cyclo := Native.mul32 2 ringDim in
  let modQ := PreviousPrime E (FirstPrime E logQprime cyclo) cyclo in
  let q := if arbFunc then ringDim else cyclo in
  mkBinFHECryptoParams
    (make_LWECryptoParams (if BINFHE_PARAMSET_eqb set TOY then 32 else 1305)
       ringDim q modQ (2 ^ 35) (319 # 100) 32)
    (make_RingGSWCryptoParams ringDim modQ q baseG 23 GINX (319 # 100)
       UNIFORM_TERNARY (negb (logQ =? 11) && timeOptimization)).

(** *** Const member functions *)

Definition SwitchCTtoqn (c : BinFHEContext) (ksk : option (LWESwitchingKey E))
    (ct : LWECiphertext) : Exc LWECiphertext :=
  P ← deref (m_params c);
  let LWEParams := GetLWEParams P in
  let modQ := lwe_Q LWEParams in
  let ringN := lwe_N LWEParams in
  if negb (GetLength ct =? ringN) && negb (GetModulus ct =? modQ)
  then Throw DimensionMismatch
  else LWE_SwitchCTtoqn E LWEParams ksk ct.

Definition Bootstrap (c : BinFHEContext) (ct : LWECiphertext) : Exc LWECiphertext :=
  S ← deref (m_binfhescheme c);
  P ← deref (m_params c);
  scheme_Bootstrap E S P (m_BTKey c) ct.

Definition EvalNOT (c : BinFHEContext) (ct : LWECiphertext) : Exc LWECiphertext :=
  S ← deref (m_binfhescheme c);
  P ← deref (m_params c);
  scheme_EvalNOT E S P ct.

(** *** Lookup tables for programmable bootstrapping *)

(** The value of [log2(x)] as [ceil] and [floor] see it, over the
    extended reals: [log2(0)] is minus infinity, and both roundings of
    an infinity return it unchanged.  The source evaluates the three
    functions in double precision, which agrees with the exact values at
    zero, at every power of two and at every argument below 2^32; for
    larger arguments that are not powers of two the rounded logarithm can
    be integral where the exact one is not, and no statement below about
    the outcome of the test covers them. *)
Inductive RoundedLog : Set :=
  | MinusInfinity
  | Integral (k : N).

Definition floor_log2 (x : N) : RoundedLog :=
  if x =? 0 then MinusInfinity else Integral (N.log2 x).
Definition ceil_log2 (x : N) : RoundedLog :=
  if x =? 0 then MinusInfinity else Integral (N.log2_up x).

Definition RoundedLog_eqb (a b : RoundedLog) : bool :=
  match a, b with
  | MinusInfinity, MinusInfinity => true
  | Integral j, Integral k => j =? k
  | _, _ => false
  end.

(** The [for] loop of [GenerateLUTviaFunction] from index [i] on, with
    [count] indices left; the table is filled front to back and the
    first sample outside [Z_p] throws. *)
Fixpoint LUT_fill (f : N → N → N) (p interval outerval : N) (count : nat)
    (i : N) : Exc (list N) :=
  match count with
  | O => Ok []
  | S count' =>
      m ← NativeInteger_div i interval;
      let temp := f m p in
      if p <=? temp then Throw FunctionRangeError
      else
        rest ← LUT_fill f p interval outerval count' (i + 1);
        Ok (Native.mul temp outerval :: rest)
  end.

Definition GenerateLUTviaFunction (c : BinFHEContext) (f : N → N → N) (p : N)
  : Exc (list N) :=
  if negb (RoundedLog_eqb (ceil_log2 p) (floor_log2 p)) then Throw InvalidModulus
  else
    P ← deref (m_params c);
    let q := lwe_q (GetLWEParams P) in
    interval ← NativeInteger_div q p;
    let outerval := interval in
    let vecSize := Native.to_uint32 q in
    LUT_fill f p interval outerval (N.to_nat vecSize) 0.

End Context.

Arguments m_params {E} _.
Arguments m_binfhescheme {E} _.
Arguments m_BTKey {E} _.
Arguments m_BTKey_map {E} _.
Arguments m_timeOptimization {E} _.

(** ** Exchanging the bootstrap step

    The same engine with another bootstrap routine, and a context carried
    over to it field by field; they serve to state that an operation never
    reaches the bootstrap step. *)

Definition with_Bootstrap (E : Engine)
    (bootstrap : BinFHEScheme → BinFHECryptoParams → RingGSWBTKey E →
                 LWECiphertext → Exc LWECiphertext) : Engine :=
  {| LWEPrivateKey := LWEPrivateKey E;
     LWESwitchingKey := LWESwitchingKey E;
     RingGSWBTKey := RingGSWBTKey E;
     KEYGEN_MODE := KEYGEN_MODE E;
     RingGSWBTKey_default := RingGSWBTKey_default E;
     FindRingDim := FindRingDim E;
     FirstPrime := FirstPrime E;
     PreviousPrime := PreviousPrime E;
     LWE_default_keyDist := LWE_default_keyDist E;
     PreCompute_Gpower_map := PreCompute_Gpower_map E;
     scheme_KeyGen := scheme_KeyGen E;
     scheme_Bootstrap := bootstrap;
     scheme_EvalNOT := scheme_EvalNOT E;
     LWE_SwitchCTtoqn := LWE_SwitchCTtoqn E |}.

Definition over_Bootstrap {E : Engine} bootstrap (c : BinFHEContext E)
  : BinFHEContext (with_Bootstrap E bootstrap) :=
  mkBinFHEContext (with_Bootstrap E bootstrap) (m_params c) (m_binfhescheme c)
    (m_BTKey c) (m_BTKey_map c) (m_timeOptimization c).

(** ** Concrete instances

    A small engine over which the member functions can be run: keys are
    numbers, the bootstrapping key generated under a base is the base plus
    one, and key generation throws under the base [fail_at], if any. *)

Module Sample.

Definition KeyGen_at (fail_at : option N) (S : BinFHEScheme)
    (P : BinFHECryptoParams) (sk : N) (mode : unit) : Exc N :=
  let b := GetBaseG (GetRingGSWParams P) in
  if bool_decide (fail_at = Some b) then Throw (EngineFailure b) else Ok (b + 1).

Definition engine (fail_at : option N) : Engine :=
  {| LWEPrivateKey := N;
     LWESwitchingKey := N;
     RingGSWBTKey := N;
     KEYGEN_MODE := unit;
     RingGSWBTKey_default := 0;
     FindRingDim := λ _ _ logQ, if logQ <=? 27 then 1024 else 2048;
     FirstPrime := λ nBits m, 2 ^ nBits + 1;
     PreviousPrime := λ q m, q - m;
     LWE_default_keyDist := UNIFORM_TERNARY;
     PreCompute_Gpower_map := λ modQ baseG signEval,
       if signEval
       then {[ 2 ^ 14 := [1]; 2 ^ 18 := [1]; 2 ^ 27 := [1] ]}
       else ∅;
     scheme_KeyGen := KeyGen_at fail_at;
     scheme_Bootstrap := λ S P k ct,
       Ok (mkLWECiphertext (ct_a ct) k (ct_modulus ct));
     scheme_EvalNOT := λ S P ct,
       Ok (mkLWECiphertext (ct_a ct) (ct_modulus ct - ct_b ct) (ct_modulus ct));
     LWE_SwitchCTtoqn := λ P ksk ct, Ok ct |}.

(** A context that was never generated. *)
Definition fresh (fail_at : option N) : BinFHEContext (engine fail_at) :=
  mkBinFHEContext (engine fail_at) None None 0 ∅ false.

(** Parameters with ring dimension 4, large modulus 97 and [q = 16]. *)
Definition small_params (baseG : N) (gpower : gmap N (list N)) : BinFHECryptoParams :=
  {| GetLWEParams := mkLWECryptoParams 2 4 16 97 97 (319 # 100) 32 UNIFORM_TERNARY;
     GetRingGSWParams :=
       mkRingGSWCryptoParams 4 97 16 baseG 23 GINX (319 # 100) UNIFORM_TERNARY
         true gpower |}.

Definition context (fail_at : option N) (baseG : N) (gpower : gmap N (list N))
    (key : N) (keys : gmap N N) (timeOpt : bool)
  : BinFHEContext (engine fail_at) :=
  mkBinFHEContext (engine fail_at) (Some (small_params baseG gpower))
    (Some (mkBinFHEScheme GINX)) key keys timeOpt.

Definition three_bases : gmap N (list N) :=
  {[ 2 ^ 14 := [1]; 2 ^ 18 := [1]; 2 ^ 27 := [1] ]}.

(** The engine whose key generation never throws, and a generated context
    over it with no bootstrapping key yet. *)
Definition E0 : Engine := engine None.
Definition generated : BinFHEContext E0 := context None (2 ^ 14) ∅ 0 ∅ false.

(** The engine whose key generation throws under the base 2^18, and a
    time-optimizing context over it whose gadget-power map has the three
    bases 2^14, 2^18 and 2^27, the first one active. *)
Definition E18 : Engine := engine (Some (2 ^ 18)).
Definition sweeping : BinFHEContext E18 :=
  context (Some (2 ^ 18)) (2 ^ 14) three_bases 0 ∅ true.

End Sample.

(** ** Further members: encryption, the other key installers, the catalogue

    The remaining collaborators of the context.  Encryption and key
    generation draw from a random generator; the draws of one call are an
    explicit argument [rnd] of the operation that makes them. *)

(** Modelled from the spec: the enumeration of output forms is declared in
    a header outside this file, whose code names [SMALL_DIM] and whose
    comments name [FRESH] and [LARGE_DIM]; every other enumerator is
    [other_output]. *)
Inductive BINFHE_OUTPUT : Set :=
  | FRESH
  | LARGE_DIM
  | SMALL_DIM
  | other_output (tag : N).

Definition is_SMALL_DIM (output : BINFHE_OUTPUT) : bool :=
  match output with
  | SMALL_DIM => true
  | _ => false
  end.

Record Collaborators (E : Engine) : Type := mkCollaborators {
  Draws : Type;
  LWEPublicKey : Type;
  NativePoly : Type;
  (** the key-switching key held by a bootstrapping key *)
  KSkey : RingGSWBTKey E → option (LWESwitchingKey E);
  LWE_Encrypt :
    Draws → LWECryptoParams → LWEPrivateKey E → Z → N → N → Exc LWECiphertext;
  LWE_EncryptN :
    Draws → LWECryptoParams → LWEPublicKey → Z → N → N → Exc LWECiphertext;
  scheme_KeyGenTest :
    BinFHEScheme → BinFHECryptoParams → LWEPrivateKey E → NativePoly → NativePoly →
    option (LWESwitchingKey E) → KEYGEN_MODE E → Exc (RingGSWBTKey E);
  scheme_MultiPartyKeyGen :
    Draws → BinFHEScheme → LWECryptoParams → LWEPrivateKey E → NativePoly →
    LWEPublicKey → option (LWESwitchingKey E) → bool → Exc (RingGSWBTKey E)
}.
Arguments Draws {E} _.
Arguments LWEPublicKey {E} _.
Arguments NativePoly {E} _.
Arguments KSkey {E} _ _.
Arguments LWE_Encrypt {E} _ _ _ _ _ _ _.
Arguments LWE_EncryptN {E} _ _ _ _ _ _ _.
Arguments scheme_KeyGenTest {E} _ _ _ _ _ _ _ _.
Arguments scheme_MultiPartyKeyGen {E} _ _ _ _ _ _ _ _ _.

Section FurtherMembers.

Variable E : Engine.
Variable X : Collaborators E.

Notation "'do' x <- m ; k" := (bind E m (λ x, k))
  (at level 10, x name, m at level 100, k at level 200).
Notation "m ;; k" := (bind E m (λ _, k))
  (at level 100, k at level 200, right associativity).

(** [Encrypt] under a secret key: a zero modulus argument stands for the ciphertext
    modulus [q]; the [output] argument is kept for compatibility only. *)
Definition Encrypt (c : BinFHEContext E) (rnd : Draws X) (sk : LWEPrivateKey E)
    (m : Z) (output : BINFHE_OUTPUT) (p : N) (modulus : N) : Exc LWECiphertext :=
  P ← deref (m_params c);
  let LWEParams := GetLWEParams P in
  if modulus =? 0 then LWE_Encrypt X rnd LWEParams sk m p (lwe_q LWEParams)
  else LWE_Encrypt X rnd LWEParams sk m p modulus.

(** [Encrypt] under a public key: a zero modulus argument stands for the large
    modulus [Q], and the result is switched down with the key-switching
    key of the active bootstrapping key when [output] is [SMALL_DIM]. *)
Definition Encrypt_pk (c : BinFHEContext E) (rnd : Draws X) (pk : LWEPublicKey X)
    (m : Z) (output : BINFHE_OUTPUT) (p : N) (modulus : N) : Exc LWECiphertext :=
  P ← deref (m_params c);
  let LWEParams := GetLWEParams P in
  ct ← (if modulus =? 0 then LWE_EncryptN X rnd LWEParams pk m p (lwe_Q LWEParams)
        else LWE_EncryptN X rnd LWEParams pk m p modulus);
  if is_SMALL_DIM output then SwitchCTtoqn E c (KSkey X (m_BTKey c)) ct
  else Ok ct.

(** [BTKeyGenTest]: the key built from the given polynomials becomes the
    active key and is stored under the active base. *)
Definition BTKeyGenTest (sk : LWEPrivateKey E) (skNPoly acrs : NativePoly X)
    (kskey : option (LWESwitchingKey E)) (keygenMode : KEYGEN_MODE E)
  : Method E unit :=
  do P <- (λ c, (c, deref (m_params c)));
  let RGSWParams := GetRingGSWParams P in
  let temp := GetBaseG RGSWParams in
  do k <- (λ c, (c, S ← deref (m_binfhescheme c);
                    P ← deref (m_params c);
                    scheme_KeyGenTest X S P sk skNPoly acrs kskey keygenMode));
  modify E (set_BTKey E k) ;;
  BTKey_map_assign E temp k.

(** [MultiPartyKeyGen]: the same with the multiparty generator, which is
    handed the LWE parameters. *)
Definition MultiPartyKeyGen (rnd : Draws X) (LWEsk : LWEPrivateKey E)
    (zN : NativePoly X) (publicKey : LWEPublicKey X)
    (prevkskey : option (LWESwitchingKey E)) (leadFlag : bool) : Method E unit :=
  do P <- (λ c, (c, deref (m_params c)));
  let LWEParams := GetLWEParams P in
  let RGSWParams := GetRingGSWParams P in
  let temp := GetBaseG RGSWParams in
  do k <- (λ c, (c, S ← deref (m_binfhescheme c);
                    scheme_MultiPartyKeyGen X rnd S LWEParams LWEsk zN publicKey
                      prevkskey leadFlag));
  modify E (set_BTKey E k) ;;
  BTKey_map_assign E temp k.

(** *** The catalogue of the named-profile overload *)

(** One row of [paramsMap]. *)
Record BinFHEContextParams : Type := mkBinFHEContextParams {
  numberBits : N;
  cyclOrder : N;
  latticeParam : N;
  mod_ : N;
  modKS : N;
  stdDev : Q;
  baseKS : N;
  gadgetBase : N;
  baseRK : N;
  keyDist : SECRET_KEY_DIST
}.

(** The value of [modKS] that stands for the intermediate prime. *)
Definition PRIME : N := 0.
Definition STD_DEV : Q := 319 # 100.

Definition paramsMap (set : BINFHE_PARAMSET) : option BinFHEContextParams :=
  let row nb co lp md mk sd bk gb br kd :=
    Some (mkBinFHEContextParams nb co lp md mk sd bk gb br kd) in
  match set with
  | TOY             => row 27 1024   64  512 PRIME            STD_DEV 25 (N.shiftl 1 9)  23 UNIFORM_TERNARY
  | MEDIUM          => row 28 2048  422 1024 (N.shiftl 1 14) STD_DEV (N.shiftl 1 7) (N.shiftl 1 10) 32 UNIFORM_TERNARY
  | STD128_LMKCDEY  => row 28 2048  458 1024 (N.shiftl 1 14) STD_DEV (N.shiftl 1 7) (N.shiftl 1 10) 32 GAUSSIAN
  | STD128_AP       => row 27 2048  512 1024 (N.shiftl 1 14) STD_DEV (N.shiftl 1 7) (N.shiftl 1 9)  32 UNIFORM_TERNARY
  | STD128_APOPT    => row 27 2048  502 1024 (N.shiftl 1 14) STD_DEV (N.shiftl 1 7) (N.shiftl 1 9)  32 UNIFORM_TERNARY
  | STD128          => row 27 2048  512 1024 (N.shiftl 1 14) STD_DEV (N.shiftl 1 7) (N.shiftl 1 7)  32 UNIFORM_TERNARY
  | STD128_OPT      => row 27 2048  502 1024 (N.shiftl 1 14) STD_DEV (N.shiftl 1 7) (N.shiftl 1 7)  32 UNIFORM_TERNARY
  | STD192          => row 37 4096 1024 1024 (N.shiftl 1 19) STD_DEV 28 (N.shiftl 1 13) 32 UNIFORM_TERNARY
  | STD192_OPT      => row 37 4096  805 1024 (N.shiftl 1 15) STD_DEV 32 (N.shiftl 1 13) 32 UNIFORM_TERNARY
  | STD256          => row 29 4096 1024 2048 (N.shiftl 1 14) STD_DEV (N.shiftl 1 7) (N.shiftl 1 8)  46 UNIFORM_TERNARY
  | STD256_OPT      => row 29 4096  990 2048 (N.shiftl 1 14) STD_DEV (N.shiftl 1 7) (N.shiftl 1 8)  46 UNIFORM_TERNARY
  | STD128Q         => row 50 4096 1024 1024 (N.shiftl 1 25) STD_DEV 32 (N.shiftl 1 25) 32 UNIFORM_TERNARY
  | STD128Q_OPT     => row 50 4096  585 1024 (N.shiftl 1 15) STD_DEV 32 (N.shiftl 1 25) 32 UNIFORM_TERNARY
  | STD192Q         => row 35 4096 1024 1024 (N.shiftl 1 17) STD_DEV 64 (N.shiftl 1 12) 32 UNIFORM_TERNARY
  | STD192Q_OPT     => row 35 4096  875 1024 (N.shiftl 1 15) STD_DEV 32 (N.shiftl 1 12) 32 UNIFORM_TERNARY
  | STD256Q         => row 27 4096 2048 2048 (N.shiftl 1 16) STD_DEV 16 (N.shiftl 1 7)  46 UNIFORM_TERNARY
  | STD256Q_OPT     => row 27 4096 1225 1024 (N.shiftl 1 16) STD_DEV 16 (N.shiftl 1 7)  32 UNIFORM_TERNARY
  | SIGNED_MOD_TEST => row 28 2048  512 1024 PRIME            STD_DEV 25 (N.shiftl 1 7)  23 UNIFORM_TERNARY
  end.

(** The intermediate prime of a row. *)
Definition catalogue_Q (params : BinFHEContextParams) : N :=
  PreviousPrime E (FirstPrime E (numberBits params) (cyclOrder params))
    (cyclOrder params).

(** The LWE parameters the named-profile overload builds from a row. *)
Definition catalogue_lweparams (params : BinFHEContextParams) : LWECryptoParams :=
  let modQ := catalogue_Q params in
  let ringDim := cyclOrder params / 2 in
  if PRIME =? modKS params
  then mkLWECryptoParams (latticeParam params) ringDim (mod_ params) modQ modQ
         (stdDev params) (baseKS params) (keyDist params)
  else mkLWECryptoParams (latticeParam params) ringDim (mod_ params) modQ
         (modKS params) (stdDev params) (baseKS params) (keyDist params).

End FurtherMembers.

(** Collaborators over the sample engines: encryption returns a ciphertext
    of the key's dimension under the requested modulus, and the installers
    return the test key 77. *)
Module SampleMore.

Definition collaborators (fail_at : option N) : Collaborators (Sample.engine fail_at) :=
  mkCollaborators (Sample.engine fail_at) N N N
    (λ k : N, Some k)
    (λ rnd P sk m p md,
       Ok (mkLWECiphertext (repeat rnd (N.to_nat (lwe_n P))) (Z.to_N m) md))
    (λ rnd P pk m p md,
       Ok (mkLWECiphertext (repeat rnd (N.to_nat (lwe_N P))) (Z.to_N m) md))
    (λ S P sk skN acrs ksk mode, Ok (77 : N))
    (λ rnd S P sk zN pk ksk lead,
       if lead then Ok (77 : N) else Throw (EngineFailure 1)).

Definition X0 : Collaborators Sample.E0 := collaborators None.

End SampleMore.

(** * Properties *)

Lemma to_uint32_small x : x < Native.two32 → Native.to_uint32 x = x.
Proof. intros H. unfold Native.to_uint32. by apply N.mod_small. Qed.

Lemma Native_mul_small a b : a * b < Native.two64 → Native.mul a b = a * b.
Proof. intros H. unfold Native.mul. by apply N.mod_small. Qed.

Lemma BINFHE_METHOD_eqb_eq a b : BINFHE_METHOD_eqb a b = true ↔ a = b.
Proof.
  destruct a as [|s], b as [|t]; simpl; split; try done.
  - intros H%N.eqb_eq. by subst.
  - intros [= ->]. apply N.eqb_refl.
Qed.

Lemma Change_BaseG_twice b b' p :
  Change_BaseG b (Change_BaseG b' p) = Change_BaseG b p.
Proof. reflexivity. Qed.

Lemma Change_BaseG_same p : Change_BaseG (GetBaseG p) p = p.
Proof. by destruct p. Qed.

Lemma params_Change_BaseG_twice b b' P :
  params_Change_BaseG b (params_Change_BaseG b' P) = params_Change_BaseG b P.
Proof. reflexivity. Qed.

Lemma params_Change_BaseG_same P :
  params_Change_BaseG (GetBaseG (GetRingGSWParams P)) P = P.
Proof. destruct P as [l r]. unfold params_Change_BaseG. simpl. by rewrite Change_BaseG_same. Qed.

Lemma GetBaseG_Change_BaseG b P :
  GetBaseG (GetRingGSWParams (params_Change_BaseG b P)) = b.
Proof. reflexivity. Qed.

(** ** Parameter generation in security-profile mode *)

Section ProfileMode.

Variable E : Engine.

Lemma GenerateBinFHEContext_validation set arbFunc logQ dimN method timeOpt c :
  GenerateBinFHEContext E set arbFunc logQ dimN method timeOpt c =
    if negb (BINFHE_METHOD_eqb GINX method) then (c, Throw UnsupportedMethod)
    else if negb (BINFHE_PARAMSET_eqb set STD128) && negb (BINFHE_PARAMSET_eqb set TOY)
    then (c, Throw UnsupportedProfile)
    else if (29 <? logQ) || (logQ <? 11) then (c, Throw ModulusOutOfRange)
    else
      (mkBinFHEContext E (Some (profile_params E set arbFunc logQ dimN timeOpt))
         (Some (mkBinFHEScheme GINX)) (m_BTKey c) (m_BTKey_map c) timeOpt,
       Ok tt).
Proof.
  unfold GenerateBinFHEContext.
  destruct (BINFHE_METHOD_eqb GINX method) eqn:Hm; simpl; [|done].
  apply BINFHE_METHOD_eqb_eq in Hm as <-.
  destruct (negb (BINFHE_PARAMSET_eqb set STD128) && negb (BINFHE_PARAMSET_eqb set TOY));
    [done|].
  destruct (29 <? logQ); simpl; [done|].
  destruct (logQ <? 11); simpl; [done|].
  unfold profile_params.
  destruct (select_baseG_logQprime logQ) as [baseG logQprime]. simpl.
  reflexivity.
Qed.

Lemma select_baseG_logQprime_table logQ :
  select_baseG_logQprime logQ =
    if 25 <? logQ then (2 ^ 14, 54)
    else if 16 <? logQ then (2 ^ 18, 54)
    else if 11 <? logQ then (2 ^ 27, 54)
    else (2 ^ 5, 27).
Proof. unfold select_baseG_logQprime. by repeat case_match. Qed.

(** C2 (amended): when the security-profile overload succeeds, the
    multi-base flag handed to the RingGSW parameters is set exactly when
    [logQ] is not 11 and time optimization was requested; the
    gadget-power map of the result is the one precomputed under that
    flag. *)
Theorem multi_base_iff_logQ_and_timeOptimization
    set arbFunc logQ dimN method timeOpt (c c' : BinFHEContext E) :
  GenerateBinFHEContext E set arbFunc logQ dimN method timeOpt c = (c', Ok tt) →
  ∃ P, m_params c' = Some P ∧
    (rgsw_signEval (GetRingGSWParams P) = true ↔ logQ ≠ 11 ∧ timeOpt = true) ∧
    GetGPowerMap (GetRingGSWParams P) =
      PreCompute_Gpower_map E (rgsw_Q (GetRingGSWParams P))
        (GetBaseG (GetRingGSWParams P)) (negb (logQ =? 11) && timeOpt).
Proof.
  rewrite GenerateBinFHEContext_validation.
  repeat case_match; try done.
  intros [= <-]. eexists; split; [done|]. simpl. split; [|done].
  rewrite andb_true_iff, negb_true_iff, N.eqb_neq. done.
Qed.

(** C8: with the supported method and a supported profile, the
    security-profile overload succeeds for every [logQ] from 11 to 29 and
    throws the out-of-range error, leaving the context as it was, for
    every other [logQ]. *)
Theorem logQ_range_decides_success
    set arbFunc logQ dimN timeOpt (c : BinFHEContext E) :
  set = STD128 ∨ set = TOY →
  (11 ≤ logQ ≤ 29 →
     ∃ c', GenerateBinFHEContext E set arbFunc logQ dimN GINX timeOpt c = (c', Ok tt)) ∧
  (logQ < 11 ∨ 29 < logQ →
     GenerateBinFHEContext E set arbFunc logQ dimN GINX timeOpt c
       = (c, Throw ModulusOutOfRange)).
Proof.
  intros Hset. rewrite GenerateBinFHEContext_validation. simpl.
  assert (negb (BINFHE_PARAMSET_eqb set STD128) && negb (BINFHE_PARAMSET_eqb set TOY)
          = false) as -> by (by destruct Hset as [-> | ->]).
  split.
  - intros [Hlo Hhi].
    assert ((29 <? logQ) || (logQ <? 11) = false) as ->.
    { apply orb_false_iff. split; apply N.ltb_ge; lia. }
    by eexists.
  - intros Hout.
    assert ((29 <? logQ) || (logQ <? 11) = true) as ->; [|done].
    apply orb_true_iff. destruct Hout; [right | left]; apply N.ltb_lt; lia.
Qed.

(** C9: for every [logQ] from 11 to 29 (supported method and profile) the
    call succeeds, and the gadget base of the result and the bit length
    [logQ'] used for the ring-dimension lookup and the prime search are
    those of the range table: above 25 the base is 2^14, from 17 to 25 it
    is 2^18, from 12 to 16 it is 2^27, all with [logQ' = 54], and at 11
    the base is 2^5 with [logQ' = 27]. *)
Theorem gadget_base_range_table
    set arbFunc logQ dimN timeOpt (c : BinFHEContext E) :
  set = STD128 ∨ set = TOY →
  11 ≤ logQ ≤ 29 →
  ∃ c' P baseG logQprime,
    GenerateBinFHEContext E set arbFunc logQ dimN GINX timeOpt c = (c', Ok tt) ∧
    m_params c' = Some P ∧
    GetBaseG (GetRingGSWParams P) = baseG ∧
    (let ringDim0 := FindRingDim E HEStd_ternary HEStd_128_classic logQprime in
     let ringDim :=
       if (Z.of_N ringDim0 <=? dimN)%Z then Native.Z_to_uint32 dimN else ringDim0 in
     lwe_N (GetLWEParams P) = ringDim ∧
     lwe_Q (GetLWEParams P) =
       PreviousPrime E (FirstPrime E logQprime (Native.mul32 2 ringDim))
         (Native.mul32 2 ringDim)) ∧
    (25 < logQ → baseG = 2 ^ 14 ∧ logQprime = 54) ∧
    (16 < logQ ≤ 25 → baseG = 2 ^ 18 ∧ logQprime = 54) ∧
    (11 < logQ ≤ 16 → baseG = 2 ^ 27 ∧ logQprime = 54) ∧
    (logQ = 11 → baseG = 2 ^ 5 ∧ logQprime = 27).
Proof.
  intros Hset [Hlo Hhi]. rewrite GenerateBinFHEContext_validation. simpl.
  assert (negb (BINFHE_PARAMSET_eqb set STD128) && negb (BINFHE_PARAMSET_eqb set TOY)
          = false) as -> by (by destruct Hset as [-> | ->]).
  assert ((29 <? logQ) || (logQ <? 11) = false) as ->.
  { apply orb_false_iff. split; apply N.ltb_ge; lia. }
  eexists _, _, (select_baseG_logQprime logQ).1, (select_baseG_logQprime logQ).2.
  split; [done|]. split; [done|]. split; [done|]. split; [done|].
  rewrite select_baseG_logQprime_table.
  destruct (N.ltb_spec 25 logQ), (N.ltb_spec 16 logQ), (N.ltb_spec 11 logQ);
    simpl; repeat split; intros; try lia; done.
Qed.

End ProfileMode.

(** ** Const member functions *)

Section ConstMembers.

Variable E : Engine.

(** The guard of [SwitchCTtoqn] throws exactly when the dimension and the
    modulus both differ from the large ones. *)
Lemma SwitchCTtoqn_guard (c : BinFHEContext E) P ksk ct :
  m_params c = Some P →
  SwitchCTtoqn E c ksk ct =
    if bool_decide (GetLength ct ≠ lwe_N (GetLWEParams P)
                    ∧ GetModulus ct ≠ lwe_Q (GetLWEParams P))
    then Throw DimensionMismatch
    else LWE_SwitchCTtoqn E (GetLWEParams P) ksk ct.
Proof.
  intros HP. unfold SwitchCTtoqn. rewrite HP. simpl.
  destruct (N.eqb_spec (GetLength ct) (lwe_N (GetLWEParams P))),
           (N.eqb_spec (GetModulus ct) (lwe_Q (GetLWEParams P))); simpl;
    case_bool_decide; try done; tauto.
Qed.

(** C1 (the code at the failing input): a ciphertext whose dimension is
    not the large dimension but whose modulus is the large modulus passes
    the guard of [SwitchCTtoqn]; the call is forwarded to the key-switching
    routine instead of throwing the dimension error. *)
Theorem SwitchCTtoqn_forwards_wrong_dimension (c : BinFHEContext E) P ksk ct :
  m_params c = Some P →
  GetLength ct ≠ lwe_N (GetLWEParams P) →
  GetModulus ct = lwe_Q (GetLWEParams P) →
  SwitchCTtoqn E c ksk ct = LWE_SwitchCTtoqn E (GetLWEParams P) ksk ct.
Proof.
  intros HP Hlen Hmod. rewrite (SwitchCTtoqn_guard c P) by done.
  case_bool_decide; [tauto | done].
Qed.

(** C10: [EvalNOT] reads the parameters and the scheme object only; two
    contexts that agree on them return the same result whatever their
    active bootstrapping keys and key maps are, and the result stays the
    same when the bootstrap routine of the scheme object is exchanged for
    any other, so the bootstrap step is never reached. *)
Theorem EvalNOT_independent_of_keys (c1 c2 : BinFHEContext E) ct bootstrap :
  m_params c1 = m_params c2 →
  m_binfhescheme c1 = m_binfhescheme c2 →
  EvalNOT E c1 ct = EvalNOT E c2 ct ∧
  EvalNOT (with_Bootstrap E bootstrap) (over_Bootstrap bootstrap c1) ct
    = EvalNOT E c1 ct.
Proof. intros HP HS. unfold EvalNOT. simpl. by rewrite HP, HS. Qed.

Lemma EvalNOT_set_keys (c : BinFHEContext E) k m ct :
  EvalNOT E (set_BTKey E k (set_BTKey_map E m c)) ct = EvalNOT E c ct.
Proof. reflexivity. Qed.

End ConstMembers.

(** [Bootstrap], by contrast, hands the active key to the scheme object:
    over the sample engine two contexts that differ in the active key only
    return different ciphertexts. *)
Lemma Bootstrap_reads_active_key :
  let c1 := Sample.context None (2 ^ 14) ∅ 1 ∅ false in
  let c2 := Sample.context None (2 ^ 14) ∅ 2 ∅ false in
  let ct := mkLWECiphertext [3; 5] 7 16 in
  Bootstrap (Sample.engine None) c1 ct ≠ Bootstrap (Sample.engine None) c2 ct.
Proof. simpl. discriminate. Qed.

(** ** Lookup-table construction *)

Section LookupTable.

Variable E : Engine.

Lemma power_of_two_check p :
  0 < p →
  RoundedLog_eqb (ceil_log2 p) (floor_log2 p) = true ↔ power_of_two p.
Proof.
  intros Hp. unfold ceil_log2, floor_log2.
  destruct (N.eqb_spec p 0) as [->|_]; [lia|]. simpl.
  rewrite N.eqb_eq, <- (N.log2_log2_up_exact p Hp). split; congruence.
Qed.

(** The loop throws nothing but the range error and the division error. *)
Lemma LUT_fill_errors f p interval outerval count i e :
  LUT_fill f p interval outerval count i = Throw e →
  e = FunctionRangeError ∨ e = DivisionByZero.
Proof.
  revert i. induction count as [|n IH]; intros i; simpl; [done|].
  unfold NativeInteger_div. destruct (interval =? 0); simpl.
  { intros [= <-]. by right. }
  destruct (p <=? f (i / interval) p); simpl.
  { intros [= <-]. by left. }
  destruct (LUT_fill f p interval outerval n (i + 1)) eqn:Hrest; simpl; [done|].
  intros [= <-]. by eapply IH.
Qed.

(** With a non-zero interval the loop either meets a sample outside [Z_p]
    and throws the range error, or fills the whole table. *)
Lemma LUT_fill_spec f p interval outerval count i :
  interval ≠ 0 →
  ((∃ k, (k < count)%nat ∧ p ≤ f ((i + N.of_nat k) / interval) p)
   ∧ LUT_fill f p interval outerval count i = Throw FunctionRangeError)
  ∨ ((∀ k, (k < count)%nat → f ((i + N.of_nat k) / interval) p < p)
     ∧ ∃ t, LUT_fill f p interval outerval count i = Ok t
            ∧ length t = count
            ∧ ∀ k, (k < count)%nat →
                t !! k = Some (Native.mul (f ((i + N.of_nat k) / interval) p) outerval)).
Proof.
  intros Hint. revert i. induction count as [|n IH]; intros i; simpl.
  { right. split; [lia|]. exists []. repeat split; [lia..]. }
  unfold NativeInteger_div. destruct (N.eqb_spec interval 0) as [|_]; [done|]. simpl.
  destruct (N.leb_spec p (f (i / interval) p)) as [Hbad|Hgood]; simpl.
  { left. split; [|done]. exists 0%nat. split; [lia|]. by rewrite N.add_0_r. }
  destruct (IH (i + 1)) as [[(k & Hk & Hbad) ->] | [Hall (t & -> & Hlen & Hnth)]]; simpl.
  - left. split; [|done]. exists (S k). split; [lia|].
    by replace (i + N.of_nat (S k)) with (i + 1 + N.of_nat k) by lia.
  - right. split.
    + intros [|k] Hk; [by rewrite N.add_0_r|].
      replace (i + N.of_nat (S k)) with (i + 1 + N.of_nat k) by lia.
      apply Hall. lia.
    + eexists. split; [done|]. split; [simpl; lia|].
      intros [|k] Hk; simpl; [by rewrite N.add_0_r|].
      replace (i + N.of_nat (S k)) with (i + 1 + N.of_nat k) by lia.
      apply Hnth. lia.
Qed.

Lemma interval_nonzero p q : 1 ≤ p → p ≤ q → q / p ≠ 0.
Proof.
  intros Hp Hq Hz. apply N.div_small_iff in Hz; lia.
Qed.

Lemma GenerateLUTviaFunction_unfold (c : BinFHEContext E) P f p :
  m_params c = Some P →
  1 ≤ p →
  GenerateLUTviaFunction E c f p =
    if negb (RoundedLog_eqb (ceil_log2 p) (floor_log2 p)) then Throw InvalidModulus
    else
      let q := lwe_q (GetLWEParams P) in
      LUT_fill f p (q / p) (q / p) (N.to_nat (Native.to_uint32 q)) 0.
Proof.
  intros HP Hp. unfold GenerateLUTviaFunction. rewrite HP. simpl.
  unfold NativeInteger_div. destruct (N.eqb_spec p 0) as [|_]; [lia|]. done.
Qed.

(** C6 (amended): for a plaintext modulus [p] from 1 up to the 32-bit
    range, the call throws the invalid-modulus error exactly when [p] is
    not a power of two; for a power of two [p] that does not exceed the
    ciphertext modulus [q] (itself in the 32-bit range of the table size)
    it throws the range error exactly when [f] returns a value of at least
    [p] at the sample point [i / (q / p)] of some index [i < q], and
    otherwise returns a table. *)
Theorem GenerateLUTviaFunction_failures (c : BinFHEContext E) P f p :
  m_params c = Some P →
  1 ≤ p < Native.two32 →
  let q := lwe_q (GetLWEParams P) in
  (GenerateLUTviaFunction E c f p = Throw InvalidModulus ↔ ¬ power_of_two p) ∧
  (power_of_two p → p ≤ q < Native.two32 →
     (GenerateLUTviaFunction E c f p = Throw FunctionRangeError
        ↔ ∃ i, i < q ∧ p ≤ f (i / (q / p)) p) ∧
     ((∀ i, i < q → f (i / (q / p)) p < p) →
        ∃ t, GenerateLUTviaFunction E c f p = Ok t)).
Proof.
  intros HP [Hp Hp32] q.
  rewrite (GenerateLUTviaFunction_unfold c P) by done. fold q. clearbody q.
  pose proof (power_of_two_check p ltac:(lia)) as Hchk.
  destruct (RoundedLog_eqb (ceil_log2 p) (floor_log2 p)) eqn:Hc; simpl.
  - assert (power_of_two p) as Hpow by by apply Hchk.
    split.
    { split; [|done]. intros Hthrow. apply LUT_fill_errors in Hthrow as [?|?]; done. }
    intros _ [Hpq Hq32]. rewrite to_uint32_small by done.
    destruct (LUT_fill_spec f p (q / p) (q / p) (N.to_nat q) 0
                (interval_nonzero p q Hp Hpq))
      as [[(k & Hk & Hbad) ->] | [Hall (t & -> & _)]].
    + split.
      * split; [|done]. intros _. exists (N.of_nat k).
        rewrite N.add_0_l in Hbad. split; [lia|done].
      * intros Hgood. assert (N.of_nat k < q) as Hkq by (clear -Hk; lia).
        specialize (Hgood _ Hkq).
        rewrite N.add_0_l in Hbad. lia.
    + split; [|by eexists].
      split; [done|]. intros (i & Hi & Hbad).
      specialize (Hall (N.to_nat i) ltac:(lia)).
      rewrite N.add_0_l, N2Nat.id in Hall. lia.
  - split.
    + split; [|done]. intros _ Hpow. apply Hchk in Hpow. done.
    + intros Hpow. apply Hchk in Hpow. done.
Qed.

(** C7 (amended): for a power of two [p] that does not exceed the
    ciphertext modulus [q], with [q] in the 32-bit range of the table size,
    and a function [f] into [Z_p], the call returns a table of length [q]
    whose entry at index [i] is [f (i / (q / p)) p] times [q / p]; the
    entries of two indices in the same interval of width [q / p] are
    equal, and when [p] divides [q] there are exactly [p] such intervals. *)
Theorem GenerateLUTviaFunction_table (c : BinFHEContext E) P f p :
  m_params c = Some P →
  power_of_two p →
  let q := lwe_q (GetLWEParams P) in
  p ≤ q < Native.two32 →
  (∀ m, f m p < p) →
  ∃ t, GenerateLUTviaFunction E c f p = Ok t ∧
       length t = N.to_nat q ∧
       (∀ i, i < q → t !! N.to_nat i = Some (f (i / (q / p)) p * (q / p))) ∧
       (∀ i j, i < q → j < q → i / (q / p) = j / (q / p) →
               t !! N.to_nat i = t !! N.to_nat j) ∧
       (q mod p = 0 → ∀ i, i < q → i / (q / p) < p).
Proof.
  intros HP [k ->] q [Hpq Hq32] Hf.
  assert (1 ≤ 2 ^ k) as Hp.
  { pose proof (N.pow_nonzero 2 k). lia. }
  rewrite (GenerateLUTviaFunction_unfold c P) by done. fold q. clearbody q.
  assert (RoundedLog_eqb (ceil_log2 (2 ^ k)) (floor_log2 (2 ^ k)) = true) as ->.
  { apply power_of_two_check; [lia | by exists k]. }
  simpl. rewrite to_uint32_small by done.
  set (interval := q / 2 ^ k).
  assert (interval ≠ 0) as Hint by by apply interval_nonzero.
  assert (∀ m, Native.mul (f m (2 ^ k)) interval = f m (2 ^ k) * interval) as Hmul.
  { intros m. apply Native_mul_small.
    pose proof (N.Div0.mul_div_le q (2 ^ k)) as Hle. fold interval in Hle.
    specialize (Hf m). unfold Native.two32, Native.two64 in *.
    assert (f m (2 ^ k) * interval ≤ 2 ^ k * interval) by (apply N.mul_le_mono_r; lia).
    assert (2 ^ 32 < 2 ^ 64) by done. lia. }
  destruct (LUT_fill_spec f (2 ^ k) interval interval (N.to_nat q) 0 Hint)
    as [[(j & Hj & Hbad) _] | [_ (t & -> & Hlen & Hnth)]].
  { specialize (Hf ((0 + N.of_nat j) / interval)). lia. }
  assert (∀ i, i < q → t !! N.to_nat i = Some (f (i / interval) (2 ^ k) * interval))
    as Hentry.
  { intros i Hi. rewrite (Hnth (N.to_nat i)) by lia.
    rewrite N.add_0_l, N2Nat.id, Hmul. done. }
  exists t. split; [done|]. split; [done|]. split; [done|]. split.
  - intros i j Hi Hj Heq. rewrite !Hentry by done. by rewrite Heq.
  - intros Hdiv i Hi. apply N.Div0.div_lt_upper_bound.
    apply N.Div0.div_exact in Hdiv. fold interval in Hdiv. lia.
Qed.

End LookupTable.

(** ** Bootstrapping-key generation *)

Section KeyGeneration.

Variable E : Engine.

Implicit Types (c : BinFHEContext E) (P : BinFHECryptoParams) (S : BinFHEScheme).

Ltac unfold_method :=
  unfold bind, ret, gets, modify, lift, call_KeyGen, RGSWParams_Change_BaseG,
    BTKey_map_assign, BTKey_map_subscript, deref in *.

Lemma elem_of_ascending_keys {A} (m : gmap N A) b :
  b ∈ ascending_keys m ↔ b ∈ dom m.
Proof.
  unfold ascending_keys. rewrite merge_sort_Permutation. apply elem_of_elements.
Qed.

Lemma ascending_keys_sorted {A} (m : gmap N A) :
  Sorted N.le (ascending_keys m).
Proof. unfold ascending_keys. apply (Sorted_merge_sort N.le). Qed.

Lemma ascending_keys_NoDup {A} (m : gmap N A) : NoDup (ascending_keys m).
Proof.
  unfold ascending_keys. rewrite merge_sort_Permutation. apply NoDup_elements.
Qed.

Lemma ascending_keys_empty {A} (m : gmap N A) :
  ascending_keys m = [] ↔ m = ∅.
Proof.
  split.
  - intros Hnil. apply dom_empty_iff_L. apply set_eq. intros b.
    rewrite <- elem_of_ascending_keys, Hnil. set_solver.
  - intros ->. unfold ascending_keys. by rewrite dom_empty_L, elements_empty.
Qed.

(** One iteration of the sweep. *)
Lemma BTKeyGen_sweep_cons b rest sk mode c P S :
  m_params c = Some P →
  m_binfhescheme c = Some S →
  BTKeyGen_sweep E (b :: rest) sk mode c =
    let c1 := set_params E (Some (params_Change_BaseG b P)) c in
    match scheme_KeyGen E S (params_Change_BaseG b P) sk mode with
    | Ok k => BTKeyGen_sweep E rest sk mode
                (set_BTKey_map E (<[b := k]> (m_BTKey_map c)) c1)
    | Throw e => (c1, Throw e)
    end.
Proof.
  intros HP HS. simpl. unfold_method. rewrite HP. simpl. rewrite HS. simpl.
  by destruct (scheme_KeyGen E S (params_Change_BaseG b P) sk mode).
Qed.

(** The sweep assigns to the parameters and to the key map only. *)
Lemma BTKeyGen_sweep_frame bases sk mode c c' r :
  BTKeyGen_sweep E bases sk mode c = (c', r) →
  m_BTKey c' = m_BTKey c ∧ m_binfhescheme c' = m_binfhescheme c ∧
  m_timeOptimization c' = m_timeOptimization c.
Proof.
  revert c. induction bases as [|b rest IH]; intros c; simpl.
  { unfold ret. by intros [= <- <-]. }
  unfold_method. destruct (m_params c) as [P|] eqn:HP; [|by intros [= <- <-]].
  simpl. destruct (m_binfhescheme c) as [S|] eqn:HS; simpl; [|by intros [= <- <-]].
  destruct (scheme_KeyGen E S _ sk mode); [|by intros [= <- <-]].
  intros Hrest. apply IH in Hrest as (HK & HSch & HT). simpl in HK, HSch, HT.
  by rewrite HK, HSch, HT.
Qed.

(** A sweep that runs to its end has stored, under every base of the list,
    the key generated with that base active, and has touched no other
    entry. *)
Lemma BTKeyGen_sweep_ok bases sk mode c c' P S :
  m_params c = Some P →
  m_binfhescheme c = Some S →
  BTKeyGen_sweep E bases sk mode c = (c', Ok tt) →
  (∃ b', m_params c' = Some (params_Change_BaseG b' P)) ∧
  (∀ b, b ∈ bases →
     ∃ k, scheme_KeyGen E S (params_Change_BaseG b P) sk mode = Ok k
          ∧ m_BTKey_map c' !! b = Some k) ∧
  (∀ b, b ∉ bases → m_BTKey_map c' !! b = m_BTKey_map c !! b).
Proof.
  revert c P. induction bases as [|b0 rest IH]; intros c P HP HS.
  { simpl. unfold ret. intros [= <-]. split.
    - exists (GetBaseG (GetRingGSWParams P)). by rewrite params_Change_BaseG_same.
    - split; [|done]. intros b Hb. by apply elem_of_nil in Hb. }
  rewrite (BTKeyGen_sweep_cons b0 rest sk mode c P S) by done. simpl.
  destruct (scheme_KeyGen E S (params_Change_BaseG b0 P) sk mode) as [k0|] eqn:Hk0;
    [|done].
  intros Hrest.
  apply (IH _ (params_Change_BaseG b0 P)) in Hrest as (Hpar & Hin & Hout); [|done..].
  simpl in Hout. split; [done|]. split.
  - intros b Hb. destruct (decide (b ∈ rest)) as [Hr|Hr]; [by apply Hin|].
    apply elem_of_cons in Hb as [->|?]; [|done].
    exists k0. split; [done|]. rewrite Hout by done. apply lookup_insert_eq.
  - intros b Hb. apply not_elem_of_cons in Hb as [Hne Hr].
    rewrite Hout by done. by apply lookup_insert_ne.
Qed.

(** A sweep that throws stopped at some base [b]: key generation threw
    there, [b] is left as the active base, the bases before it have their
    keys stored and no other entry was touched. *)
Lemma BTKeyGen_sweep_throw bases sk mode c c' e P S :
  m_params c = Some P →
  m_binfhescheme c = Some S →
  BTKeyGen_sweep E bases sk mode c = (c', Throw e) →
  ∃ done b rest,
    bases = done ++ b :: rest ∧
    scheme_KeyGen E S (params_Change_BaseG b P) sk mode = Throw e ∧
    m_params c' = Some (params_Change_BaseG b P) ∧
    (∀ x, x ∈ done →
       ∃ k, scheme_KeyGen E S (params_Change_BaseG x P) sk mode = Ok k
            ∧ m_BTKey_map c' !! x = Some k) ∧
    (∀ x, x ∉ done → m_BTKey_map c' !! x = m_BTKey_map c !! x).
Proof.
  revert c P. induction bases as [|b0 rest IH]; intros c P HP HS.
  { simpl. unfold ret. done. }
  rewrite (BTKeyGen_sweep_cons b0 rest sk mode c P S) by done. simpl.
  destruct (scheme_KeyGen E S (params_Change_BaseG b0 P) sk mode) as [k0|e0] eqn:Hk0.
  - intros Hrest.
    apply (IH _ (params_Change_BaseG b0 P)) in Hrest
      as (dn & b & rs & -> & Hthrow & Hpar & Hin & Hout); [|done..].
    simpl in Hout. exists (b0 :: dn), b, rs. split_and!; [done..| |].
    + intros x Hx. destruct (decide (x ∈ dn)) as [Hd|Hd]; [by apply Hin|].
      apply elem_of_cons in Hx as [->|?]; [|done].
      exists k0. split; [done|]. rewrite Hout by done. apply lookup_insert_eq.
    + intros x Hx. apply not_elem_of_cons in Hx as [Hne Hd].
      rewrite Hout by done. by apply lookup_insert_ne.
  - intros [= <- <-]. exists [], b0, rest. split_and!; [done..| |done].
    intros x Hx. by apply elem_of_nil in Hx.
Qed.

Lemma BTKeyGen_activate_nonempty temp sk mode c :
  m_BTKey_map c ≠ ∅ →
  BTKeyGen_activate E temp sk mode c =
    match m_BTKey_map c !! temp with
    | Some k => (set_BTKey E k c, Ok tt)
    | None =>
        (set_BTKey E (RingGSWBTKey_default E)
           (set_BTKey_map E (<[temp := RingGSWBTKey_default E]> (m_BTKey_map c)) c),
         Ok tt)
    end.
Proof.
  intros Hne. unfold BTKeyGen_activate. unfold_method.
  destruct (size (m_BTKey_map c)) eqn:Hsize.
  { by apply map_size_empty_iff in Hsize. }
  simpl. by destruct (m_BTKey_map c !! temp).
Qed.

Lemma BTKeyGen_activate_empty temp sk mode c :
  m_BTKey_map c = ∅ →
  BTKeyGen_activate E temp sk mode c =
    match (S ← deref (m_binfhescheme c); P ← deref (m_params c);
           scheme_KeyGen E S P sk mode) with
    | Ok k => (set_BTKey_map E {[temp := k]} (set_BTKey E k c), Ok tt)
    | Throw e => (c, Throw e)
    end.
Proof.
  intros Hempty. unfold BTKeyGen_activate. unfold_method.
  rewrite Hempty, map_size_empty. simpl.
  destruct (m_binfhescheme c) as [S|]; simpl; [|done].
  destruct (m_params c) as [P|]; simpl; [|done].
  destruct (scheme_KeyGen E S P sk mode); [|done].
  unfold set_BTKey_map, set_BTKey, modify. simpl. by rewrite Hempty, insert_empty.
Qed.

Lemma BTKeyGen_unfold sk mode c P :
  m_params c = Some P →
  let temp := GetBaseG (GetRingGSWParams P) in
  BTKeyGen E sk mode c =
    if m_timeOptimization c then
      match BTKeyGen_sweep E (ascending_keys (GetGPowerMap (GetRingGSWParams P)))
              sk mode c with
      | (c1, Ok _) =>
          match RGSWParams_Change_BaseG E temp c1 with
          | (c2, Ok _) => BTKeyGen_activate E temp sk mode c2
          | (c2, Throw e) => (c2, Throw e)
          end
      | (c1, Throw e) => (c1, Throw e)
      end
    else BTKeyGen_activate E temp sk mode c.
Proof.
  intros HP temp. unfold BTKeyGen. unfold bind at 1. rewrite HP. simpl.
  unfold bind at 1. unfold gets at 1. unfold bind at 1.
  destruct (m_timeOptimization c); [|done].
  unfold bind at 1.
  destruct (BTKeyGen_sweep E _ sk mode c) as [c1 [[]|e]]; [|done].
  by destruct (RGSWParams_Change_BaseG E _ c1) as [c2 [[]|e]].
Qed.

(** C4: without time optimization, when the key map has entries but none
    under the active base, no key is generated (the outcome does not
    mention the key generator of the scheme object): the map gains a
    value-initialised entry under the active base and the active key is
    that empty entry. *)
Theorem BTKeyGen_missing_base_gives_empty_key sk mode c P :
  m_params c = Some P →
  m_timeOptimization c = false →
  m_BTKey_map c ≠ ∅ →
  m_BTKey_map c !! GetBaseG (GetRingGSWParams P) = None →
  BTKeyGen E sk mode c =
    (mkBinFHEContext E (m_params c) (m_binfhescheme c) (RingGSWBTKey_default E)
       (<[GetBaseG (GetRingGSWParams P) := RingGSWBTKey_default E]> (m_BTKey_map c))
       false,
     Ok tt).
Proof.
  intros HP Hopt Hne Hnone.
  rewrite (BTKeyGen_unfold sk mode c P HP). simpl. rewrite Hopt.
  rewrite BTKeyGen_activate_nonempty by done. rewrite Hnone.
  unfold set_BTKey, set_BTKey_map. simpl. by rewrite Hopt.
Qed.

(** With time optimization the call is the sweep, the restoring of the
    active base, and the activation, unless the sweep throws. *)
Lemma BTKeyGen_timeOptimization_steps sk mode c P c' r :
  m_params c = Some P →
  m_timeOptimization c = true →
  BTKeyGen E sk mode c = (c', r) →
  (∃ e, r = Throw e ∧
        BTKeyGen_sweep E (ascending_keys (GetGPowerMap (GetRingGSWParams P)))
          sk mode c = (c', Throw e)) ∨
  (∃ c1 b', BTKeyGen_sweep E (ascending_keys (GetGPowerMap (GetRingGSWParams P)))
              sk mode c = (c1, Ok tt) ∧
            m_params c1 = Some (params_Change_BaseG b' P) ∧
            BTKeyGen_activate E (GetBaseG (GetRingGSWParams P)) sk mode
              (set_params E (Some P) c1) = (c', r)).
Proof.
  intros HP Hopt. rewrite (BTKeyGen_unfold sk mode c P HP). simpl. rewrite Hopt.
  destruct (BTKeyGen_sweep E _ sk mode c) as [c1 [[]|e]] eqn:Hsweep.
  - destruct (m_binfhescheme c) as [S|] eqn:HS.
    + destruct (BTKeyGen_sweep_ok _ sk mode c c1 P S HP HS Hsweep) as ([b' Hb'] & _).
      unfold RGSWParams_Change_BaseG. rewrite Hb'.
      rewrite params_Change_BaseG_twice, params_Change_BaseG_same.
      intros Hact. right. by exists c1, b'.
    + (* a null scheme object: the sweep can only end normally over no base *)
      destruct (ascending_keys (GetGPowerMap (GetRingGSWParams P))) as [|b0 rest].
      * simpl in Hsweep. unfold ret in Hsweep. injection Hsweep as <-.
        unfold RGSWParams_Change_BaseG. rewrite HP, params_Change_BaseG_same.
        intros Hact. right. exists c, (GetBaseG (GetRingGSWParams P)).
        by rewrite params_Change_BaseG_same.
      * simpl in Hsweep. unfold_method. rewrite HP in Hsweep. simpl in Hsweep.
        rewrite HS in Hsweep. done.
  - intros [= <- <-]. left. by exists e.
Qed.

(** C3: with time optimization, a call that returns has stored under every
    base of the gadget-power map the key generated with that base active;
    the map then holds the entries it had, those bases and the base that
    was active at the start, and the active key is the entry under that
    base.  Without time optimization and with an empty map, the call leaves
    exactly one entry, under the active base, holding the generated key,
    which is the active key.  The call returns whenever the key generator
    of the scheme object does. *)
Theorem BTKeyGen_populates_key_map sk mode c P S :
  m_params c = Some P →
  m_binfhescheme c = Some S →
  let temp := GetBaseG (GetRingGSWParams P) in
  let gpowermap := GetGPowerMap (GetRingGSWParams P) in
  ((∀ P', ∃ k, scheme_KeyGen E S P' sk mode = Ok k) →
     ∃ c', BTKeyGen E sk mode c = (c', Ok tt)) ∧
  ∀ c', BTKeyGen E sk mode c = (c', Ok tt) →
    m_params c' = Some P ∧
    (m_timeOptimization c = true →
       (∀ b, b ∈ dom gpowermap →
          ∃ k, scheme_KeyGen E S (params_Change_BaseG b P) sk mode = Ok k
               ∧ m_BTKey_map c' !! b = Some k) ∧
       dom (m_BTKey_map c') = dom (m_BTKey_map c) ∪ dom gpowermap ∪ {[temp]} ∧
       m_BTKey_map c' !! temp = Some (m_BTKey c')) ∧
    (m_timeOptimization c = false → m_BTKey_map c = ∅ →
       m_BTKey_map c' = {[temp := m_BTKey c']} ∧
       scheme_KeyGen E S P sk mode = Ok (m_BTKey c')).
Proof.
  intros HP HS temp gpowermap. subst temp gpowermap. split.
  - (* the call returns *)
    intros Htotal.
    destruct (BTKeyGen E sk mode c) as [c' [[]|e]] eqn:Hrun; [by exists c'|].
    exfalso. destruct (m_timeOptimization c) eqn:Hopt.
    + apply (BTKeyGen_timeOptimization_steps sk mode c P c' _ HP Hopt) in Hrun
        as [(e' & _ & Hsweep) | (c1 & b' & Hsweep & Hb' & Hact)].
      * apply (BTKeyGen_sweep_throw _ sk mode c c' e' P S HP HS) in Hsweep
          as (_ & b & _ & _ & Hthrow & _).
        destruct (Htotal (params_Change_BaseG b P)) as [k Hk]. congruence.
      * destruct (BTKeyGen_sweep_frame _ sk mode c c1 _ Hsweep) as (_ & HS1 & _).
        destruct (decide (m_BTKey_map c1 = ∅)) as [Hempty|Hne].
        -- rewrite BTKeyGen_activate_empty in Hact by done. simpl in Hact.
           rewrite HS1, HS in Hact. simpl in Hact.
           destruct (Htotal P) as [k Hk]. rewrite Hk in Hact. done.
        -- rewrite BTKeyGen_activate_nonempty in Hact by done. simpl in Hact.
           by destruct (m_BTKey_map c1 !! _).
    + rewrite (BTKeyGen_unfold sk mode c P HP) in Hrun. simpl in Hrun.
      rewrite Hopt in Hrun.
      destruct (decide (m_BTKey_map c = ∅)) as [Hempty|Hne].
      * rewrite BTKeyGen_activate_empty in Hrun by done.
        rewrite HS, HP in Hrun. simpl in Hrun.
        destruct (Htotal P) as [k Hk]. rewrite Hk in Hrun. done.
      * rewrite BTKeyGen_activate_nonempty in Hrun by done.
        by destruct (m_BTKey_map c !! _).
  - (* the state it leaves *)
    intros c' Hrun. destruct (m_timeOptimization c) eqn:Hopt.
    + apply (BTKeyGen_timeOptimization_steps sk mode c P c' _ HP Hopt) in Hrun
        as [(e' & [=] & _) | (c1 & b' & Hsweep & Hb' & Hact)].
      destruct (BTKeyGen_sweep_frame _ sk mode c c1 _ Hsweep) as (_ & HS1 & _).
      destruct (BTKeyGen_sweep_ok _ sk mode c c1 P S HP HS Hsweep)
        as (_ & Hin & Hout).
      assert (dom (m_BTKey_map c1) =
                dom (m_BTKey_map c) ∪ dom (GetGPowerMap (GetRingGSWParams P))) as Hdom.
      { apply set_eq. intros x. rewrite elem_of_union, !elem_of_dom.
        destruct (decide (x ∈ dom (GetGPowerMap (GetRingGSWParams P)))) as [Hx|Hx].
        - apply elem_of_ascending_keys in Hx as Hx'.
          destruct (Hin x Hx') as (k & _ & ->).
          split; [intros _; right; by apply elem_of_dom | by eexists].
        - rewrite Hout by by rewrite elem_of_ascending_keys.
          split; [by left | by intros [?|?%elem_of_dom]]. }
      assert (∀ b, b ∈ dom (GetGPowerMap (GetRingGSWParams P)) →
                ∃ k, scheme_KeyGen E S (params_Change_BaseG b P) sk mode = Ok k
                     ∧ m_BTKey_map c1 !! b = Some k) as Hin'.
      { intros b Hb. apply Hin. by apply elem_of_ascending_keys. }
      destruct (decide (m_BTKey_map c1 = ∅)) as [Hempty|Hne].
      * rewrite BTKeyGen_activate_empty in Hact by done. simpl in Hact.
        rewrite HS1, HS in Hact. simpl in Hact.
        destruct (scheme_KeyGen E S P sk mode) as [k|]; [|done].
        injection Hact as <-. simpl. split; [done|]. split; [|done]. intros _.
        split_and!.
        -- intros b Hb. destruct (Hin' b Hb) as (kb & _ & Hkb).
           rewrite Hempty in Hkb. done.
        -- rewrite dom_singleton_L. rewrite Hempty, dom_empty_L in Hdom. set_solver.
        -- apply lookup_singleton_eq.
      * rewrite BTKeyGen_activate_nonempty in Hact by done. simpl in Hact.
        destruct (m_BTKey_map c1 !! _) as [k|] eqn:Htemp;
          injection Hact as <-; simpl; (split; [done|]); (split; [|done]); intros _.
        -- split_and!; [done| |done].
           rewrite Hdom. apply elem_of_dom_2 in Htemp. set_solver.
        -- split_and!.
           ++ intros b Hb. destruct (Hin' b Hb) as (kb & Hgen & Hkb).
              exists kb. split; [done|].
              rewrite lookup_insert_ne; [done|]. intros <-. congruence.
           ++ rewrite dom_insert_L, Hdom. set_solver.
           ++ apply lookup_insert_eq.
    + rewrite (BTKeyGen_unfold sk mode c P HP) in Hrun. simpl in Hrun.
      rewrite Hopt in Hrun. 
      destruct (decide (m_BTKey_map c = ∅)) as [Hempty|Hne].
      * rewrite BTKeyGen_activate_empty in Hrun by done.
        rewrite HS, HP in Hrun. simpl in Hrun.
        destruct (scheme_KeyGen E S P sk mode) as [k|]; [|done].
        injection Hrun as <-. simpl. by split_and!.
      * rewrite BTKeyGen_activate_nonempty in Hrun by done.
        destruct (m_BTKey_map c !! _); injection Hrun as <-; simpl;
          by split_and!.
Qed.

(** The activation throws only when the map is empty and key generation
    fails, and then it has assigned nothing. *)
Lemma BTKeyGen_activate_throw temp sk mode c c' e :
  BTKeyGen_activate E temp sk mode c = (c', Throw e) →
  c' = c ∧ m_BTKey_map c = ∅ ∧
  (S ← deref (m_binfhescheme c); P ← deref (m_params c);
   scheme_KeyGen E S P sk mode) = Throw e.
Proof.
  destruct (decide (m_BTKey_map c = ∅)) as [Hempty|Hne].
  - rewrite BTKeyGen_activate_empty by done.
    destruct (_ ← deref (m_binfhescheme c); _) as [k|e0]; [done|].
    by intros [= <- <-].
  - rewrite BTKeyGen_activate_nonempty by done.
    by destruct (m_BTKey_map c !! temp).
Qed.

Lemma set_params_same c : set_params E (m_params c) c = c.
Proof. by destruct c. Qed.

(** Two contexts with the same fields are the same context. *)
Lemma BinFHEContext_eq c c' :
  m_params c' = m_params c → m_binfhescheme c' = m_binfhescheme c →
  m_BTKey c' = m_BTKey c → m_BTKey_map c' = m_BTKey_map c →
  m_timeOptimization c' = m_timeOptimization c → c' = c.
Proof. destruct c, c'. simpl. by intros -> -> -> -> ->. Qed.

(** C5 (amended): the operations that assign to the context and can throw.
    The security-profile overload of [GenerateBinFHEContext] throws at its
    argument checks only and then leaves the context as it was; so do
    [BTKeyGenTest] and [MultiPartyKeyGen] when their generator throws, and
    [BTKeyGen] without time optimization.  A throwing [BTKeyGen] always
    leaves the active key, the scheme object and the time-optimization
    flag as they were, but with time optimization it does not roll back:
    when key generation throws under a base [b] of the sweep, [b] stays
    the active base, the bases before [b] keep the keys just stored for
    them and the other entries are untouched, so that the context is as
    before exactly when [b] is the base that was active and every base
    before [b] already held the key just generated for it.  The only other
    throw is that of the single generation under the original base over an
    empty gadget-power map and an empty key map, which leaves the context
    as it was. *)
Theorem failing_call_effects (X : Collaborators E)
    sk mode set arbFunc logQ dimN method timeOpt
    skNPoly acrs kskey rnd zN publicKey prevkskey leadFlag c c' e :
  (GenerateBinFHEContext E set arbFunc logQ dimN method timeOpt c = (c', Throw e) →
     c' = c ∧
     (e = UnsupportedMethod ∨ e = UnsupportedProfile ∨ e = ModulusOutOfRange)) ∧
  (BTKeyGenTest E X sk skNPoly acrs kskey mode c = (c', Throw e)
   ∨ MultiPartyKeyGen E X rnd sk zN publicKey prevkskey leadFlag c = (c', Throw e) →
     c' = c) ∧
  (BTKeyGen E sk mode c = (c', Throw e) →
     m_BTKey c' = m_BTKey c ∧
     m_binfhescheme c' = m_binfhescheme c ∧
     m_timeOptimization c' = m_timeOptimization c ∧
     (m_timeOptimization c = false → c' = c) ∧
     (∀ P S,
        m_params c = Some P → m_binfhescheme c = Some S →
        m_timeOptimization c = true →
        (∃ done b rest,
           ascending_keys (GetGPowerMap (GetRingGSWParams P)) = done ++ b :: rest ∧
           scheme_KeyGen E S (params_Change_BaseG b P) sk mode = Throw e ∧
           m_params c' = Some (params_Change_BaseG b P) ∧
           (∀ x, x ∈ done →
              ∃ k, scheme_KeyGen E S (params_Change_BaseG x P) sk mode = Ok k
                   ∧ m_BTKey_map c' !! x = Some k) ∧
           (∀ x, x ∉ done → m_BTKey_map c' !! x = m_BTKey_map c !! x) ∧
           (c' = c ↔
              b = GetBaseG (GetRingGSWParams P) ∧
              ∀ x, x ∈ done →
                ∃ k, scheme_KeyGen E S (params_Change_BaseG x P) sk mode = Ok k
                     ∧ m_BTKey_map c !! x = Some k))
        ∨ (GetGPowerMap (GetRingGSWParams P) = ∅ ∧ m_BTKey_map c = ∅ ∧
           scheme_KeyGen E S P sk mode = Throw e ∧ c' = c))).
Proof.
  split_and!.
  { rewrite GenerateBinFHEContext_validation.
    repeat case_match; intros [= <- <-]; split; tauto. }
  { intros [Hrun|Hrun];
      [unfold BTKeyGenTest in Hrun | unfold MultiPartyKeyGen in Hrun];
      unfold bind, modify, BTKey_map_assign in Hrun;
      destruct (m_params c) as [P|]; simpl in Hrun;
      try (by injection Hrun as <- _);
      destruct (m_binfhescheme c) as [S|]; simpl in Hrun;
      try (by injection Hrun as <- _);
      by repeat case_match; simplify_eq. }
  destruct (m_params c) as [P|] eqn:HP; intros Hrun.
  2:{ unfold BTKeyGen in Hrun. unfold bind at 1 in Hrun. rewrite HP in Hrun.
      simpl in Hrun. injection Hrun as <- <-. by split_and!. }
  destruct (m_timeOptimization c) eqn:Hopt.
  - apply (BTKeyGen_timeOptimization_steps sk mode c P c' _ HP Hopt) in Hrun
      as [(e' & Heq & Hsweep) | (c1 & b' & Hsweep & Hb' & Hact)].
    + injection Heq as Heq. subst e'.
      destruct (BTKeyGen_sweep_frame _ sk mode c c' _ Hsweep) as (HK & HS' & HT).
      split_and!; [done|done|congruence|done|].
      intros P' S [= <-] HS _. left.
      destruct (BTKeyGen_sweep_throw _ sk mode c c' e P S HP HS Hsweep)
        as (dn & b & rs & Hkeys & Hthrow & Hpar & Hin & Hout).
      exists dn, b, rs. split_and!; [done..|].
      split.
      * intros ->. split.
        -- rewrite HP in Hpar. injection Hpar as Hpar.
           by rewrite Hpar at 1.
        -- apply Hin.
      * intros [-> Hheld]. apply BinFHEContext_eq; [|done| done | |congruence].
        -- by rewrite Hpar, HP, params_Change_BaseG_same.
        -- apply map_eq. intros x.
           destruct (decide (x ∈ dn)) as [Hx|Hx]; [|by apply Hout].
           destruct (Hin x Hx) as (k & Hk & ->).
           destruct (Hheld x Hx) as (k' & Hk' & ->). congruence.
    + destruct (BTKeyGen_sweep_frame _ sk mode c c1 _ Hsweep) as (HK & HS' & HT).
      apply BTKeyGen_activate_throw in Hact as (-> & Hempty & Hgen).
      simpl in Hempty, Hgen. simpl.
      split_and!; [done|done|congruence|done|].
      intros P' S [= <-] HS _. right.
      rewrite HS', HS in Hgen. simpl in Hgen.
      destruct (ascending_keys (GetGPowerMap (GetRingGSWParams P)))
        as [|b0 rest] eqn:Hkeys.
      * simpl in Hsweep. unfold ret in Hsweep. injection Hsweep as <-.
        apply ascending_keys_empty in Hkeys.
        split_and!; [done..|]. rewrite <- HP. apply set_params_same.
      * exfalso.
        destruct (BTKeyGen_sweep_ok _ sk mode c c1 P S HP HS Hsweep) as (_ & Hin & _).
        destruct (Hin b0) as (k & _ & Hk); [by left|].
        rewrite Hempty in Hk. done.
  - rewrite (BTKeyGen_unfold sk mode c P HP) in Hrun. simpl in Hrun.
    rewrite Hopt in Hrun.
    apply BTKeyGen_activate_throw in Hrun as (-> & _). by split_and!.
Qed.

End KeyGeneration.

(** * Concrete runs

    The statements above at explicit inputs over the sample engine: one
    run for each theorem that has hypotheses, and the runs on which the
    design document's wording fails. *)

Import Sample.

(** A ciphertext of dimension 2 under the large modulus 97 goes through
    [SwitchCTtoqn], although the large dimension is 4. *)
Lemma SwitchCTtoqn_forwards_wrong_dimension_run :
  let ct := mkLWECiphertext [1; 2] 3 97 in
  GetLength ct ≠ 4 ∧ SwitchCTtoqn E0 generated (Some 5) ct = Ok ct.
Proof.
  split; [discriminate|].
  apply (SwitchCTtoqn_forwards_wrong_dimension E0 generated
           (small_params (2 ^ 14) ∅) (Some 5) (mkLWECiphertext [1; 2] 3 97)).
  - reflexivity.
  - vm_compute. discriminate.
  - reflexivity.
Defined.

(** With both the dimension and the modulus wrong the guard does throw. *)
Lemma SwitchCTtoqn_rejects_small_ciphertext :
  SwitchCTtoqn E0 generated (Some 5) (mkLWECiphertext [1; 2] 3 16)
    = Throw DimensionMismatch.
Proof. reflexivity. Qed.

(** [logQ = 12] without time optimization: the call succeeds and the
    multi-base flag of the result is off. *)
Lemma multi_base_off_without_timeOptimization :
  let r := GenerateBinFHEContext E0 STD128 false 12 0 GINX false (fresh None) in
  r.2 = Ok tt ∧ 12 ≠ 11 ∧
  (rgsw_signEval ∘ GetRingGSWParams) <$> m_params r.1 = Some false.
Proof. vm_compute. split_and!; [reflexivity | discriminate | reflexivity]. Qed.

Lemma multi_base_iff_logQ_and_timeOptimization_run :
  ∃ P, m_params (GenerateBinFHEContext E0 STD128 false 12 0 GINX true (fresh None)).1
         = Some P ∧
       (rgsw_signEval (GetRingGSWParams P) = true ↔ 12 ≠ 11 ∧ true = true) ∧
       GetGPowerMap (GetRingGSWParams P) =
         PreCompute_Gpower_map E0 (rgsw_Q (GetRingGSWParams P))
           (GetBaseG (GetRingGSWParams P)) (negb (12 =? 11) && true).
Proof.
  apply (multi_base_iff_logQ_and_timeOptimization E0 STD128 false 12 0%Z GINX true
           (fresh None)).
  vm_compute. reflexivity.
Defined.

Lemma logQ_range_decides_success_run :
  (∃ c', GenerateBinFHEContext E0 TOY true 11 0 GINX false (fresh None) = (c', Ok tt)) ∧
  GenerateBinFHEContext E0 TOY true 30 0 GINX false (fresh None)
    = (fresh None, Throw ModulusOutOfRange) ∧
  GenerateBinFHEContext E0 TOY true 10 0 GINX false (fresh None)
    = (fresh None, Throw ModulusOutOfRange).
Proof.
  split_and!.
  - apply (logQ_range_decides_success E0 TOY true 11 0%Z false (fresh None));
      [by right | lia].
  - apply (logQ_range_decides_success E0 TOY true 30 0%Z false (fresh None));
      [by right | lia].
  - apply (logQ_range_decides_success E0 TOY true 10 0%Z false (fresh None));
      [by right | lia].
Defined.

Lemma gadget_base_range_table_run :
  ∃ c' P,
    GenerateBinFHEContext E0 STD128 false 20 0 GINX true (fresh None) = (c', Ok tt) ∧
    m_params c' = Some P ∧
    GetBaseG (GetRingGSWParams P) = 2 ^ 18 ∧
    lwe_N (GetLWEParams P) = FindRingDim E0 HEStd_ternary HEStd_128_classic 54.
Proof.
  destruct (gadget_base_range_table E0 STD128 false 20 0%Z true (fresh None))
    as (c' & P & baseG & logQprime & Hrun & HP & HbaseG & [HN _] & _ & Hrow & _);
    [by left | lia |].
  destruct Hrow as [-> ->]; [lia|].
  exists c', P. split_and!; [done..|]. rewrite HN. reflexivity.
Defined.

Lemma EvalNOT_independent_of_keys_run :
  let ct := mkLWECiphertext [3; 5] 7 16 in
  EvalNOT E0 (context None (2 ^ 14) ∅ 1 ∅ false) ct
    = EvalNOT E0 (context None (2 ^ 14) ∅ 2 {[ 2 ^ 14 := 2 ]} true) ct.
Proof.
  apply (EvalNOT_independent_of_keys E0
           (context None (2 ^ 14) ∅ 1 ∅ false)
           (context None (2 ^ 14) ∅ 2 {[ 2 ^ 14 := 2 ]} true)
           (mkLWECiphertext [3; 5] 7 16)
           (λ _ _ _ _, Throw (EngineFailure 0)));
    reflexivity.
Defined.

(** A time-optimizing sweep over the three bases with a key generator that
    never throws: the three entries are there and the active key is the
    one under the base 2^14. *)
Lemma BTKeyGen_populates_key_map_run :
  let c := context None (2 ^ 14) three_bases 0 ∅ true in
  let c' := (BTKeyGen E0 5 tt c).1 in
  (∃ c1, BTKeyGen E0 5 tt c = (c1, Ok tt)) ∧
  dom (m_BTKey_map c') = dom (m_BTKey_map c) ∪ dom three_bases ∪ {[2 ^ 14]} ∧
  m_BTKey_map c' !! (2 ^ 14) = Some (m_BTKey c').
Proof.
  intros c c'.
  destruct (BTKeyGen_populates_key_map E0 5 tt c (small_params (2 ^ 14) three_bases)
              (mkBinFHEScheme GINX) eq_refl eq_refl) as [Hreturns Hstate].
  destruct (Hstate c') as (_ & Hopt & _); [by vm_compute|].
  destruct Hopt as (_ & Hdom & Hactive); [reflexivity|].
  split_and!; [|done..].
  apply Hreturns. intros P'. by eexists.
Defined.

(** A map that holds a key under 2^18 only, with 2^14 active and no time
    optimization: the active key becomes the empty key, even over an engine
    whose key generation would throw under 2^14. *)
Lemma BTKeyGen_missing_base_gives_empty_key_run :
  let c := context (Some (2 ^ 14)) (2 ^ 14) ∅ 7 {[ 2 ^ 18 := 9 ]} false in
  BTKeyGen (engine (Some (2 ^ 14))) 5 tt c =
    (context (Some (2 ^ 14)) (2 ^ 14) ∅ 0 (<[2 ^ 14 := 0]> {[ 2 ^ 18 := 9 ]}) false,
     Ok tt).
Proof.
  intros c.
  apply (BTKeyGen_missing_base_gives_empty_key (engine (Some (2 ^ 14))) 5 tt c
           (small_params (2 ^ 14) ∅)).
  - reflexivity.
  - reflexivity.
  - vm_compute. discriminate.
  - vm_compute. reflexivity.
Defined.

(** Key generation throws under 2^18, the second base of the sweep: the
    call throws, the key map has gained the entry for 2^14 and the active
    base is left at 2^18. *)
Lemma BTKeyGen_failure_mid_sweep_changes_state :
  let r := BTKeyGen E18 5 tt sweeping in
  r.2 = Throw (EngineFailure (2 ^ 18)) ∧
  m_BTKey_map sweeping !! (2 ^ 14) = None ∧
  m_BTKey_map r.1 !! (2 ^ 14) = Some (2 ^ 14 + 1) ∧
  (GetBaseG ∘ GetRingGSWParams) <$> m_params sweeping = Some (2 ^ 14) ∧
  (GetBaseG ∘ GetRingGSWParams) <$> m_params r.1 = Some (2 ^ 18).
Proof. vm_compute. by split_and!. Qed.

Lemma failing_call_effects_run :
  let c' := (BTKeyGen E18 5 tt sweeping).1 in
  (m_BTKey c' = m_BTKey sweeping ∧
   m_binfhescheme c' = m_binfhescheme sweeping ∧
   m_timeOptimization c' = m_timeOptimization sweeping) ∧
  (MultiPartyKeyGen E18 (SampleMore.collaborators (Some (2 ^ 18))) 0 5 1 2 None false
     sweeping).1 = sweeping.
Proof.
  intros c'. split.
  - destruct (failing_call_effects E18 (SampleMore.collaborators (Some (2 ^ 18)))
                5 tt TOY false 12 0%Z GINX false 1 2 None 0 1 2 None false
                sweeping c' (EngineFailure (2 ^ 18))) as (_ & _ & Hkeygen).
    destruct Hkeygen as (HK & HS & HT & _); [by vm_compute|].
    by split_and!.
  - destruct (failing_call_effects E18 (SampleMore.collaborators (Some (2 ^ 18)))
                5 tt TOY false 12 0%Z GINX false 1 2 None 0 1 2 None false
                sweeping
                (MultiPartyKeyGen E18 (SampleMore.collaborators (Some (2 ^ 18)))
                   0 5 1 2 None false sweeping).1
                (EngineFailure 1)) as (_ & Hinstall & _).
    apply Hinstall. right. by vm_compute.
Defined.

(** Key generation that throws under 2^14, the first base of the sweep and
    the active one: nothing was assigned yet and the context is as before. *)
Lemma BTKeyGen_failure_at_active_base_changes_nothing :
  let c := context (Some (2 ^ 14)) (2 ^ 14) three_bases 0 ∅ true in
  BTKeyGen (engine (Some (2 ^ 14))) 5 tt c = (c, Throw (EngineFailure (2 ^ 14))).
Proof. by vm_compute. Qed.

(** A power-of-two plaintext modulus above the ciphertext modulus 16, with
    a function that stays in range: the call neither returns a table nor
    throws one of the two documented errors. *)
Lemma GenerateLUTviaFunction_modulus_above_q :
  power_of_two 32 ∧ (∀ m, (λ _ _ : N, 0) m 32 < 32) ∧
  lwe_q (GetLWEParams (small_params (2 ^ 14) ∅)) = 16 ∧
  GenerateLUTviaFunction E0 generated (λ _ _, 0) 32 = Throw DivisionByZero.
Proof. split_and!; [by exists 5 | done | done | done]. Qed.

Lemma GenerateLUTviaFunction_failures_run :
  (GenerateLUTviaFunction E0 generated (λ m p, m + 1) 4 = Throw FunctionRangeError
     ↔ ∃ i, i < 16 ∧ 4 ≤ i / (16 / 4) + 1) ∧
  (GenerateLUTviaFunction E0 generated (λ m p, m + 1) 3 = Throw InvalidModulus
     ↔ ¬ power_of_two 3).
Proof.
  split.
  - destruct (GenerateLUTviaFunction_failures E0 generated
                (small_params (2 ^ 14) ∅) (λ m p, m + 1) 4) as [_ Hpow];
      [reflexivity | by vm_compute |].
    destruct Hpow as [Hrange _]; [by exists 2 | by vm_compute |].
    exact Hrange.
  - destruct (GenerateLUTviaFunction_failures E0 generated
                (small_params (2 ^ 14) ∅) (λ m p, m + 1) 3) as [Hinvalid _];
      [reflexivity | by vm_compute |].
    exact Hinvalid.
Defined.

(** The same with [p = 64] and reduction modulo [p]: no table is returned. *)
Lemma GenerateLUTviaFunction_no_table_above_q :
  power_of_two 64 ∧ (∀ m, (λ m p : N, m mod p) m 64 < 64) ∧
  lwe_q (GetLWEParams (small_params (2 ^ 14) ∅)) = 16 ∧
  GenerateLUTviaFunction E0 generated (λ m p, m mod p) 64 = Throw DivisionByZero.
Proof.
  split_and!; [by exists 6 | | done | done].
  intros m. by apply N.mod_lt.
Qed.

Lemma GenerateLUTviaFunction_table_run :
  ∃ t, GenerateLUTviaFunction E0 generated (λ m p, m mod p) 4 = Ok t ∧
       length t = 16%nat ∧
       t !! 5%nat = Some 4 ∧ t !! 7%nat = Some 4 ∧ t !! 8%nat = Some 8.
Proof.
  destruct (GenerateLUTviaFunction_table E0 generated (small_params (2 ^ 14) ∅)
              (λ m p, m mod p) 4) as (t & Hrun & Hlen & Hentry & _);
    [reflexivity | by exists 2 | by vm_compute | intros m; by apply N.mod_lt |].
  exists t. split_and!; [done | done | | |].
  - apply (Hentry 5). reflexivity.
  - apply (Hentry 7). reflexivity.
  - apply (Hentry 8). reflexivity.
Defined.

(** * Further properties

    What the remaining code of the file shows, beyond the statements of the
    design document. *)

Lemma BINFHE_PARAMSET_eqb_eq a b : BINFHE_PARAMSET_eqb a b = true ↔ a = b.
Proof. destruct a, b; simpl; split; (done || discriminate). Qed.

Section MoreOnGeneration.

Variable E : Engine.

Implicit Types (c : BinFHEContext E).

(** A successful call of the security-profile overload, inverted. *)
Lemma GenerateBinFHEContext_ok_inv set arbFunc logQ dimN method timeOpt c c' :
  GenerateBinFHEContext E set arbFunc logQ dimN method timeOpt c = (c', Ok tt) →
  c' = mkBinFHEContext E (Some (profile_params E set arbFunc logQ dimN timeOpt))
         (Some (mkBinFHEScheme GINX)) (m_BTKey c) (m_BTKey_map c) timeOpt.
Proof.
  rewrite GenerateBinFHEContext_validation.
  repeat case_match; try done. by intros [= <-].
Qed.

(** X1: what decides the outcome of the security-profile overload, in the
    order of its checks: the method error for every method other than
    [GINX], whatever the other arguments are; the profile error for [GINX]
    with a profile other than [STD128] and [TOY], whatever [logQ] is; the
    range error for a supported method and profile with [logQ] outside
    11..29; success otherwise. *)
Theorem GenerateBinFHEContext_outcome set arbFunc logQ dimN method timeOpt c :
  let r := (GenerateBinFHEContext E set arbFunc logQ dimN method timeOpt c).2 in
  (r = Throw UnsupportedMethod ↔ method ≠ GINX) ∧
  (r = Throw UnsupportedProfile ↔ method = GINX ∧ set ≠ STD128 ∧ set ≠ TOY) ∧
  (r = Throw ModulusOutOfRange ↔
     method = GINX ∧ (set = STD128 ∨ set = TOY) ∧ (logQ < 11 ∨ 29 < logQ)) ∧
  (r = Ok tt ↔ method = GINX ∧ (set = STD128 ∨ set = TOY) ∧ 11 ≤ logQ ≤ 29).
Proof.
  simpl. rewrite GenerateBinFHEContext_validation.
  destruct (BINFHE_METHOD_eqb GINX method) eqn:Hm; simpl.
  - apply BINFHE_METHOD_eqb_eq in Hm as <-.
    destruct (BINFHE_PARAMSET_eqb set STD128) eqn:H128;
      destruct (BINFHE_PARAMSET_eqb set TOY) eqn:Htoy; simpl;
      try apply BINFHE_PARAMSET_eqb_eq in H128;
      try apply BINFHE_PARAMSET_eqb_eq in Htoy;
      try (assert (set ≠ STD128)
             by (intros ->; simpl in H128; discriminate));
      try (assert (set ≠ TOY) by (intros ->; simpl in Htoy; discriminate)).
    1-3: destruct (N.ltb_spec 29 logQ), (N.ltb_spec logQ 11); simpl;
         split_and!; split; try done; try (intros (? & ? & ?); lia);
         try (intros _; split_and!; (done || tauto || lia)); intuition (done || lia).
    split_and!; split; try done; intuition done.
  - assert (method ≠ GINX) as Hne.
    { intros ->. simpl in Hm. discriminate. }
    split_and!; split; try done; intuition done.
Qed.

(** X2: neither overload touches the key store: whatever the outcome, the
    active bootstrapping key and the key map are those of the context
    before the call, so keys generated for earlier parameters stay.  The
    security-profile overload sets the time-optimization flag to its
    argument when it succeeds; the explicit overload leaves the flag as it
    was. *)
Theorem regeneration_keeps_key_store c c' r :
  (∀ set arbFunc logQ dimN method timeOpt,
     GenerateBinFHEContext E set arbFunc logQ dimN method timeOpt c = (c', r) →
     m_BTKey c' = m_BTKey c ∧ m_BTKey_map c' = m_BTKey_map c ∧
     (r = Ok tt → m_timeOptimization c' = timeOpt)) ∧
  (∀ n ringN q modQ std baseKS baseG baseR method,
     GenerateBinFHEContext_explicit E n ringN q modQ std baseKS baseG baseR method c
       = (c', r) →
     m_BTKey c' = m_BTKey c ∧ m_BTKey_map c' = m_BTKey_map c ∧
     m_timeOptimization c' = m_timeOptimization c).
Proof.
  split.
  - intros set arbFunc logQ dimN method timeOpt.
    rewrite GenerateBinFHEContext_validation.
    repeat case_match; intros [= <- <-]; by split_and!.
  - intros n ringN q modQ std baseKS baseG baseR method.
    unfold GenerateBinFHEContext_explicit, bind, modify. simpl.
    intros [= <- <-]. by split_and!.
Qed.

(** X3: the two parameter objects a successful call of either overload
    installs agree on the ring dimension, on the large modulus and on the
    modulus [q]; the scheme object carries the method of the RingGSW
    parameters, whose secret-key distribution is uniform ternary. *)
Theorem generated_parameters_agree c c' :
  (∃ set arbFunc logQ dimN method timeOpt,
     GenerateBinFHEContext E set arbFunc logQ dimN method timeOpt c = (c', Ok tt)) ∨
  (∃ n ringN q modQ std baseKS baseG baseR method,
     GenerateBinFHEContext_explicit E n ringN q modQ std baseKS baseG baseR method c
       = (c', Ok tt)) →
  ∃ P S, m_params c' = Some P ∧ m_binfhescheme c' = Some S ∧
    lwe_N (GetLWEParams P) = rgsw_N (GetRingGSWParams P) ∧
    lwe_Q (GetLWEParams P) = rgsw_Q (GetRingGSWParams P) ∧
    lwe_q (GetLWEParams P) = rgsw_q (GetRingGSWParams P) ∧
    scheme_method S = rgsw_method (GetRingGSWParams P) ∧
    rgsw_keyDist (GetRingGSWParams P) = UNIFORM_TERNARY.
Proof.
  intros [(set & arbFunc & logQ & dimN & method & timeOpt & Hrun)
         |(n & ringN & q & modQ & std & baseKS & baseG & baseR & method & Hrun)].
  - rewrite GenerateBinFHEContext_validation in Hrun.
    repeat case_match; try done. injection Hrun as <-.
    eexists _, _. by split_and!.
  - unfold GenerateBinFHEContext_explicit, bind, modify in Hrun. simpl in Hrun.
    injection Hrun as <-. eexists _, _. by split_and!.
Qed.

(** X4: for a requested dimension below 2^32 (negative ones included) a
    successful call of the security-profile overload installs the larger
    of the requested dimension and the minimal dimension found for
    [logQ'], so never less than that minimum; [q] is that ring dimension
    when arbitrary-function evaluation is requested and twice it, narrowed
    to 32 bits, otherwise; the key-switch modulus is 2^35 and the lattice
    dimension is 32 for [TOY] and 1305 for [STD128]. *)
Theorem profile_ring_dimension set arbFunc logQ dimN method timeOpt c c' :
  GenerateBinFHEContext E set arbFunc logQ dimN method timeOpt c = (c', Ok tt) →
  (dimN < 2 ^ 32)%Z →
  ∃ P, m_params c' = Some P ∧
    let ringDim0 :=
      FindRingDim E HEStd_ternary HEStd_128_classic (select_baseG_logQprime logQ).2 in
    let ringDim := lwe_N (GetLWEParams P) in
    ringDim = N.max ringDim0 (Z.to_N dimN) ∧
    ringDim0 ≤ ringDim ∧
    lwe_q (GetLWEParams P) = (if arbFunc then ringDim else (2 * ringDim) mod 2 ^ 32) ∧
    lwe_qKS (GetLWEParams P) = 2 ^ 35 ∧
    (set = TOY → lwe_n (GetLWEParams P) = 32) ∧
    (set = STD128 → lwe_n (GetLWEParams P) = 1305).
Proof.
  intros Hrun%GenerateBinFHEContext_ok_inv HdimN. subst c'.
  eexists. split; [done|]. simpl.
  set (ringDim0 := FindRingDim E HEStd_ternary HEStd_128_classic
                     (select_baseG_logQprime logQ).2).
  assert ((if (Z.of_N ringDim0 <=? dimN)%Z then Native.Z_to_uint32 dimN else ringDim0)
          = N.max ringDim0 (Z.to_N dimN)) as ->.
  { destruct (Z.leb_spec (Z.of_N ringDim0) dimN) as [Hle|Hgt].
    - unfold Native.Z_to_uint32, Native.two32.
      rewrite Z.mod_small by (split; [lia | exact HdimN]). lia.
    - lia. }
  split_and!; [done | lia | done | done | by intros -> | by intros ->].
Qed.

End MoreOnGeneration.

Section MoreOnKeyGeneration.

Variable E : Engine.

Implicit Types (c : BinFHEContext E) (P : BinFHECryptoParams) (S : BinFHEScheme).

(** What a returning activation leaves. *)
Lemma BTKeyGen_activate_ok temp sk mode c c' :
  BTKeyGen_activate E temp sk mode c = (c', Ok tt) →
  m_BTKey_map c' !! temp = Some (m_BTKey c') ∧
  (∀ b, b ≠ temp → m_BTKey_map c' !! b = m_BTKey_map c !! b) ∧
  m_params c' = m_params c ∧
  m_binfhescheme c' = m_binfhescheme c ∧
  m_timeOptimization c' = m_timeOptimization c ∧
  (∀ k, m_BTKey_map c !! temp = Some k →
        m_BTKey c' = k ∧ m_BTKey_map c' = m_BTKey_map c) ∧
  (m_BTKey_map c ≠ ∅ → m_BTKey_map c !! temp = None →
        m_BTKey c' = RingGSWBTKey_default E) ∧
  (m_BTKey_map c = ∅ →
        (S ← deref (m_binfhescheme c); P ← deref (m_params c);
         scheme_KeyGen E S P sk mode) = Ok (m_BTKey c')).
Proof.
  destruct (decide (m_BTKey_map c = ∅)) as [Hempty|Hne].
  - rewrite BTKeyGen_activate_empty by done.
    destruct (_ ← deref (m_binfhescheme c); _) as [k|e0]; [|done].
    intros [= <-]. simpl. split_and!; try done.
    + apply lookup_singleton_eq.
    + intros b Hb. rewrite Hempty, lookup_empty. by apply lookup_singleton_ne.
    + intros k0. by rewrite Hempty, lookup_empty.
  - rewrite BTKeyGen_activate_nonempty by done.
    destruct (m_BTKey_map c !! temp) as [k|] eqn:Hk; intros [= <-]; simpl;
      split_and!; try done.
    + by intros k0 [= ->].
    + apply lookup_insert_eq.
    + intros b Hb. by apply lookup_insert_ne.
Qed.

(** A key stored under the active base is reused. *)
Lemma BTKeyGen_stored_key sk mode c P k :
  m_params c = Some P →
  m_timeOptimization c = false →
  m_BTKey_map c !! GetBaseG (GetRingGSWParams P) = Some k →
  BTKeyGen E sk mode c = (set_BTKey E k c, Ok tt).
Proof.
  intros HP Hopt Hk.
  rewrite (BTKeyGen_unfold E sk mode c P HP). simpl. rewrite Hopt.
  rewrite BTKeyGen_activate_nonempty.
  - by rewrite Hk.
  - intros Hempty. by rewrite Hempty, lookup_empty in Hk.
Qed.

(** X5: without time optimization [BTKeyGen] memoises by base.  When the
    map already holds a key under the active base, the call returns with
    that key as the active key, whatever secret key and mode it is given,
    and changes nothing else; hence a second call after a returning first
    one changes nothing at all. *)
Theorem BTKeyGen_reuses_stored_key sk mode c P :
  m_params c = Some P →
  m_timeOptimization c = false →
  (∀ k, m_BTKey_map c !! GetBaseG (GetRingGSWParams P) = Some k →
        BTKeyGen E sk mode c = (set_BTKey E k c, Ok tt)) ∧
  (∀ c', BTKeyGen E sk mode c = (c', Ok tt) →
         ∀ sk' mode', BTKeyGen E sk' mode' c' = (c', Ok tt)).
Proof.
  intros HP Hopt.
  split; [intros k; by apply BTKeyGen_stored_key|].
  intros c' Hrun sk' mode'.
  rewrite (BTKeyGen_unfold E sk mode c P HP) in Hrun. simpl in Hrun.
  rewrite Hopt in Hrun.
  apply BTKeyGen_activate_ok in Hrun as (Hactive & _ & HP' & _ & Hopt' & _).
  rewrite (BTKeyGen_stored_key sk' mode' c' P (m_BTKey c')); [|congruence..|done].
  by destruct c'.
Qed.

(** X6: a returning [BTKeyGen], in either mode, ends with the active key
    stored under the base that was active at the start, removes no entry,
    and leaves every entry alone whose base is neither the active one nor
    (with time optimization) a base of the gadget-power map; the
    parameters, the scheme object and the flag are as before. *)
Theorem BTKeyGen_keeps_other_entries sk mode c c' P S :
  m_params c = Some P →
  m_binfhescheme c = Some S →
  BTKeyGen E sk mode c = (c', Ok tt) →
  let temp := GetBaseG (GetRingGSWParams P) in
  m_BTKey_map c' !! temp = Some (m_BTKey c') ∧
  dom (m_BTKey_map c) ⊆ dom (m_BTKey_map c') ∧
  (∀ b, b ≠ temp →
        m_timeOptimization c = false ∨ b ∉ dom (GetGPowerMap (GetRingGSWParams P)) →
        m_BTKey_map c' !! b = m_BTKey_map c !! b) ∧
  m_params c' = m_params c ∧
  m_binfhescheme c' = m_binfhescheme c ∧
  m_timeOptimization c' = m_timeOptimization c.
Proof.
  intros HP HS Hrun temp. subst temp.
  assert (∃ c1, BTKeyGen_activate E (GetBaseG (GetRingGSWParams P)) sk mode c1
                  = (c', Ok tt) ∧
                m_params c1 = m_params c ∧
                m_binfhescheme c1 = m_binfhescheme c ∧
                m_timeOptimization c1 = m_timeOptimization c ∧
                dom (m_BTKey_map c) ⊆ dom (m_BTKey_map c1) ∧
                ∀ b, m_timeOptimization c = false
                     ∨ b ∉ dom (GetGPowerMap (GetRingGSWParams P)) →
                     m_BTKey_map c1 !! b = m_BTKey_map c !! b)
    as (c1 & Hact & HP1 & HS1 & HT1 & Hdom1 & Hkeep1).
  { destruct (m_timeOptimization c) eqn:Hopt.
    - apply (BTKeyGen_timeOptimization_steps E sk mode c P c' _ HP Hopt) in Hrun
        as [(e' & [=] & _) | (c1 & b' & Hsweep & Hb' & Hact)].
      destruct (BTKeyGen_sweep_frame E _ sk mode c c1 _ Hsweep) as (_ & HS1 & HT1).
      destruct (BTKeyGen_sweep_ok E _ sk mode c c1 P S HP HS Hsweep)
        as (_ & Hin & Hout).
      exists (set_params E (Some P) c1). simpl.
      split_and!; [done | done | done | congruence | |].
      + intros x Hx. apply elem_of_dom.
        destruct (decide (x ∈ ascending_keys (GetGPowerMap (GetRingGSWParams P))))
          as [Hsw|Hsw].
        * destruct (Hin x Hsw) as (k & _ & ->). by eexists.
        * rewrite Hout by done. by apply elem_of_dom.
      + intros b [?|Hb]; [done|]. apply Hout. by rewrite elem_of_ascending_keys.
    - rewrite (BTKeyGen_unfold E sk mode c P HP) in Hrun. simpl in Hrun.
      rewrite Hopt in Hrun. exists c. by split_and!. }
  apply BTKeyGen_activate_ok in Hact as (Hactive & Hother & HP' & HS' & HT' & _).
  split_and!; [done | | | congruence..].
  - intros x Hx%Hdom1. apply elem_of_dom.
    destruct (decide (x = GetBaseG (GetRingGSWParams P))) as [->|Hne].
    + by eexists.
    + rewrite Hother by done. by apply elem_of_dom.
  - intros b Hb Hcase. rewrite Hother by done. by apply Hkeep1.
Qed.

End MoreOnKeyGeneration.

Section Composition.

Variable E : Engine.

Implicit Types (c : BinFHEContext E) (P : BinFHECryptoParams) (S : BinFHEScheme).

(** X7: on a context whose key map is empty and whose active base is not
    swept away from (no time optimization, or the active base is one of
    the gadget-power map), a returning [BTKeyGen] makes the key that the
    generator returns for the given secret key under the current
    parameters the active key, and [Bootstrap] then runs with exactly that
    key. *)
Theorem Bootstrap_after_BTKeyGen sk mode c c' P S :
  m_params c = Some P →
  m_binfhescheme c = Some S →
  m_BTKey_map c = ∅ →
  m_timeOptimization c = false
  ∨ GetBaseG (GetRingGSWParams P) ∈ dom (GetGPowerMap (GetRingGSWParams P)) →
  BTKeyGen E sk mode c = (c', Ok tt) →
  scheme_KeyGen E S P sk mode = Ok (m_BTKey c') ∧
  ∀ ct, Bootstrap E c' ct = scheme_Bootstrap E S P (m_BTKey c') ct.
Proof.
  intros HP HS Hempty Hcase Hrun.
  assert (scheme_KeyGen E S P sk mode = Ok (m_BTKey c') ∧
          m_params c' = Some P ∧ m_binfhescheme c' = Some S) as (Hgen & HP' & HS').
  { destruct (m_timeOptimization c) eqn:Hopt.
    - destruct Hcase as [|Htemp]; [done|].
      apply (BTKeyGen_timeOptimization_steps E sk mode c P c' _ HP Hopt) in Hrun
        as [(e' & [=] & _) | (c1 & b' & Hsweep & Hb' & Hact)].
      destruct (BTKeyGen_sweep_frame E _ sk mode c c1 _ Hsweep) as (_ & HS1 & _).
      destruct (BTKeyGen_sweep_ok E _ sk mode c c1 P S HP HS Hsweep) as (_ & Hin & _).
      destruct (Hin (GetBaseG (GetRingGSWParams P))) as (k & Hk & Hstored).
      { by apply elem_of_ascending_keys. }
      rewrite params_Change_BaseG_same in Hk.
      apply BTKeyGen_activate_ok in Hact as (_ & _ & HP' & HS' & _ & Hreuse & _).
      destruct (Hreuse k Hstored) as [-> _]. simpl in HP', HS'.
      split_and!; [done | done | congruence].
    - rewrite (BTKeyGen_unfold E sk mode c P HP) in Hrun. simpl in Hrun.
      rewrite Hopt in Hrun.
      apply BTKeyGen_activate_ok in Hrun as (_ & _ & HP' & HS' & _ & _ & _ & Hnew).
      specialize (Hnew Hempty). rewrite HS, HP in Hnew. simpl in Hnew.
      split_and!; [done | congruence..]. }
  split; [done|]. intros ct. unfold Bootstrap. by rewrite HS', HP'.
Qed.

(** X8: generating parameters again does not refresh the bootstrapping
    key.  Take a context with an empty key map, generate parameters in
    security-profile mode without time optimization, generate the
    bootstrapping key, and generate parameters again: the next [BTKeyGen]
    returns without generating anything.  When the gadget base of the new
    parameters differs from the old one, the active key becomes the empty
    key, stored under the new base beside the old entry; when the base is
    the same, the active key stays the key generated for the old
    parameters. *)
Theorem BTKeyGen_after_regeneration
    set1 arb1 logQ1 dim1 method1 set2 arb2 logQ2 dim2 method2
    sk mode sk' mode' c0 c1 c2 c3 :
  m_BTKey_map c0 = ∅ →
  GenerateBinFHEContext E set1 arb1 logQ1 dim1 method1 false c0 = (c1, Ok tt) →
  BTKeyGen E sk mode c1 = (c2, Ok tt) →
  GenerateBinFHEContext E set2 arb2 logQ2 dim2 method2 false c2 = (c3, Ok tt) →
  let b1 := (select_baseG_logQprime logQ1).1 in
  let b2 := (select_baseG_logQprime logQ2).1 in
  ∃ c4, BTKeyGen E sk' mode' c3 = (c4, Ok tt) ∧
    (b1 ≠ b2 →
       m_BTKey c4 = RingGSWBTKey_default E ∧
       m_BTKey_map c4 = <[b2 := RingGSWBTKey_default E]> {[b1 := m_BTKey c2]}) ∧
    (b1 = b2 →
       m_BTKey c4 = m_BTKey c2 ∧ m_BTKey_map c4 = {[b1 := m_BTKey c2]}).
Proof.
  intros Hempty Hgen1%GenerateBinFHEContext_ok_inv Hkey Hgen2 b1 b2.
  subst c1.
  set (P1 := profile_params E set1 arb1 logQ1 dim1 false) in *.
  set (P2 := profile_params E set2 arb2 logQ2 dim2 false) in *.
  rewrite (BTKeyGen_unfold E sk mode _ P1) in Hkey by reflexivity. simpl in Hkey.
  rewrite BTKeyGen_activate_empty in Hkey by done. simpl in Hkey.
  destruct (scheme_KeyGen E _ P1 sk mode) as [k|]; [|done].
  injection Hkey as <-. simpl in Hgen2.
  apply GenerateBinFHEContext_ok_inv in Hgen2. simpl in Hgen2. subst c3.
  fold P2.
  rewrite (BTKeyGen_unfold E sk' mode' _ P2) by reflexivity. simpl.
  rewrite BTKeyGen_activate_nonempty.
  2:{ simpl. apply insert_non_empty. }
  simpl. fold b1 b2.
  destruct (decide (b1 = b2)) as [Heq|Hne].
  - rewrite <- Heq, lookup_singleton_eq. eexists. split; [done|]. simpl.
    by split.
  - rewrite lookup_singleton_ne by done. eexists. split; [done|]. simpl.
    by split.
Qed.

End Composition.

Section MoreMembers.

Variable E : Engine.
Variable X : Collaborators E.

Implicit Types (c : BinFHEContext E) (P : BinFHECryptoParams) (S : BinFHEScheme).

(** The two installers share their last two statements. *)
Lemma install_generated_key (gen : BinFHEContext E → Exc (RingGSWBTKey E)) temp c :
  bind E (λ c0, (c0, gen c0))
    (λ k, bind E (modify E (set_BTKey E k)) (λ _, BTKey_map_assign E temp k)) c =
  match gen c with
  | Ok k =>
      (mkBinFHEContext E (m_params c) (m_binfhescheme c) k
         (<[temp := k]> (m_BTKey_map c)) (m_timeOptimization c), Ok tt)
  | Throw e => (c, Throw e)
  end.
Proof. unfold bind, modify, BTKey_map_assign. simpl. by destruct (gen c). Qed.

(** X9: [BTKeyGenTest] and [MultiPartyKeyGen] always call their
    generator, unlike [BTKeyGen].  When the generator throws, the call
    throws the same error and leaves the context as it was.  When the
    generator returns a key, the call returns, that key is the active key
    and is stored under the active base, replacing whatever was stored
    there, and nothing else is changed; without time optimization a
    [BTKeyGen] that follows keeps that key and generates nothing. *)
Theorem key_installers_overwrite
    sk skNPoly acrs kskey mode rnd LWEsk zN publicKey prevkskey leadFlag c P S :
  m_params c = Some P →
  m_binfhescheme c = Some S →
  let temp := GetBaseG (GetRingGSWParams P) in
  let installs (generated : Exc (RingGSWBTKey E)) (c' : BinFHEContext E)
      (r : Exc unit) : Prop :=
    match generated with
    | Ok k =>
        r = Ok tt ∧ m_BTKey c' = k ∧
        m_BTKey_map c' = <[temp := k]> (m_BTKey_map c) ∧
        m_params c' = m_params c ∧
        m_binfhescheme c' = m_binfhescheme c ∧
        m_timeOptimization c' = m_timeOptimization c ∧
        (m_timeOptimization c = false →
           ∀ sk' mode', BTKeyGen E sk' mode' c' = (c', Ok tt))
    | Throw e => r = Throw e ∧ c' = c
    end in
  (∀ c' r, BTKeyGenTest E X sk skNPoly acrs kskey mode c = (c', r) →
     installs (scheme_KeyGenTest X S P sk skNPoly acrs kskey mode) c' r) ∧
  (∀ c' r, MultiPartyKeyGen E X rnd LWEsk zN publicKey prevkskey leadFlag c = (c', r) →
     installs (scheme_MultiPartyKeyGen X rnd S (GetLWEParams P) LWEsk zN publicKey
                 prevkskey leadFlag) c' r).
Proof.
  intros HP HS temp installs.
  assert (∀ g c' r,
            match g with
            | Ok k =>
                (mkBinFHEContext E (Some P) (Some S) k
                   (<[temp := k]> (m_BTKey_map c)) (m_timeOptimization c), Ok tt)
            | Throw e => (c, Throw e)
            end = (c', r) → installs g c' r) as Hshape.
  { intros [k|e0] c' r [= <- <-]; unfold installs; simpl; [|done].
    split_and!; [done..|].
    intros Hopt sk' mode'.
    rewrite (BTKeyGen_stored_key E sk' mode' _ P k); [done|done|done|].
    simpl. apply lookup_insert_eq. }
  split; intros c' r Hrun; apply Hshape;
    [unfold BTKeyGenTest in Hrun | unfold MultiPartyKeyGen in Hrun];
    unfold bind at 1 in Hrun; rewrite HP in Hrun; simpl in Hrun;
    rewrite install_generated_key, HP, HS in Hrun; exact Hrun.
Qed.

(** X10: the modulus and output arguments of the two [Encrypt] overloads.
    A zero modulus stands for [q] under a secret key and for the large
    modulus [Q] under a public key.  The secret-key overload never reads
    [output]; the public-key overload returns the large ciphertext as it
    is unless [output] is [SMALL_DIM], in which case the ciphertext goes
    to key switching with the key-switching key of the active
    bootstrapping key as soon as its dimension is [N] or its modulus is
    [Q], and the dimension error is thrown only when both differ. *)
Theorem Encrypt_modulus_and_output c P rnd sk pk m output p modulus :
  m_params c = Some P →
  let LWEParams := GetLWEParams P in
  let large :=
    LWE_EncryptN X rnd LWEParams pk m p
      (if modulus =? 0 then lwe_Q LWEParams else modulus) in
  Encrypt E X c rnd sk m output p modulus =
    LWE_Encrypt X rnd LWEParams sk m p
      (if modulus =? 0 then lwe_q LWEParams else modulus) ∧
  (output ≠ SMALL_DIM → Encrypt_pk E X c rnd pk m output p modulus = large) ∧
  (∀ ct, output = SMALL_DIM → large = Ok ct →
     (GetLength ct = lwe_N LWEParams ∨ GetModulus ct = lwe_Q LWEParams →
        Encrypt_pk E X c rnd pk m output p modulus =
          LWE_SwitchCTtoqn E LWEParams (KSkey X (m_BTKey c)) ct) ∧
     (GetLength ct ≠ lwe_N LWEParams ∧ GetModulus ct ≠ lwe_Q LWEParams →
        Encrypt_pk E X c rnd pk m output p modulus = Throw DimensionMismatch)).
Proof.
  intros HP LWEParams large. subst LWEParams large.
  unfold Encrypt, Encrypt_pk. rewrite HP. simpl. split_and!.
  - by destruct (modulus =? 0).
  - intros Hout.
    assert (is_SMALL_DIM output = false) as -> by by destruct output.
    destruct (modulus =? 0);
      by destruct (LWE_EncryptN X rnd (GetLWEParams P) pk m p _).
  - intros ct -> Hlarge. simpl.
    assert ((if modulus =? 0
             then LWE_EncryptN X rnd (GetLWEParams P) pk m p (lwe_Q (GetLWEParams P))
             else LWE_EncryptN X rnd (GetLWEParams P) pk m p modulus) = Ok ct) as ->.
    { by destruct (modulus =? 0). }
    simpl. rewrite (SwitchCTtoqn_guard E c P) by done.
    split; intros Hcase; case_bool_decide; try done; tauto.
Qed.

End MoreMembers.

Section MoreOnLookupTables.

Variable E : Engine.

Implicit Types (c : BinFHEContext E) (P : BinFHECryptoParams).

(** The loop reads the function at its sample points only. *)
Lemma LUT_fill_ext f g p interval outerval count i :
  (∀ k, (k < count)%nat →
        f ((i + N.of_nat k) / interval) p = g ((i + N.of_nat k) / interval) p) →
  LUT_fill f p interval outerval count i = LUT_fill g p interval outerval count i.
Proof.
  revert i. induction count as [|n IH]; intros i Hagree; simpl; [done|].
  unfold NativeInteger_div. destruct (interval =? 0); simpl; [done|].
  pose proof (Hagree 0%nat ltac:(lia)) as H0. rewrite N.add_0_r in H0. rewrite H0.
  destruct (p <=? g (i / interval) p); [done|].
  rewrite (IH (i + 1)); [done|].
  intros k Hk. specialize (Hagree (S k) ltac:(lia)).
  by replace (i + 1 + N.of_nat k) with (i + N.of_nat (S k)) by lia.
Qed.

(** X11: for a power of two [p] up to [q] and a function into [Z_p], the
    table has [q mod 2^32] entries (the size is narrowed to 32 bits);
    every entry is the sample [f (i / (q / p)) p] times [q / p], lies
    below [q], is a multiple of [q / p], and gives the sample back when
    divided by [q / p]. *)
Theorem GenerateLUTviaFunction_entries c P f p :
  m_params c = Some P →
  power_of_two p →
  let q := lwe_q (GetLWEParams P) in
  p ≤ q < Native.two64 →
  (∀ m, f m p < p) →
  ∃ t, GenerateLUTviaFunction E c f p = Ok t ∧
       length t = N.to_nat (Native.to_uint32 q) ∧
       ∀ i, i < Native.to_uint32 q →
         ∃ v, t !! N.to_nat i = Some v ∧
              v = f (i / (q / p)) p * (q / p) ∧
              v < q ∧
              v mod (q / p) = 0 ∧
              v / (q / p) = f (i / (q / p)) p.
Proof.
  intros HP [k ->] q [Hpq Hq64] Hf.
  assert (1 ≤ 2 ^ k) as Hp.
  { pose proof (N.pow_nonzero 2 k). lia. }
  rewrite (GenerateLUTviaFunction_unfold E c P) by done. fold q. clearbody q.
  assert (RoundedLog_eqb (ceil_log2 (2 ^ k)) (floor_log2 (2 ^ k)) = true) as ->.
  { apply power_of_two_check; [lia | by exists k]. }
  simpl. set (interval := q / 2 ^ k).
  assert (interval ≠ 0) as Hint by by apply interval_nonzero.
  assert (∀ m, f m (2 ^ k) * interval < q) as Hbound.
  { intros m. pose proof (N.Div0.mul_div_le q (2 ^ k)) as Hle. fold interval in Hle.
    specialize (Hf m).
    assert ((f m (2 ^ k) + 1) * interval ≤ 2 ^ k * interval)
      by (apply N.mul_le_mono_r; lia).
    lia. }
  destruct (LUT_fill_spec f (2 ^ k) interval interval
              (N.to_nat (Native.to_uint32 q)) 0 Hint)
    as [[(j & Hj & Hbad) _] | [_ (t & -> & Hlen & Hnth)]].
  { specialize (Hf ((0 + N.of_nat j) / interval)). lia. }
  exists t. split; [done|]. split; [done|].
  intros i Hi. eexists. split.
  { rewrite (Hnth (N.to_nat i)) by lia. rewrite N.add_0_l, N2Nat.id. done. }
  rewrite Native_mul_small by (specialize (Hbound (i / interval)); lia).
  split_and!; [done | apply Hbound | by apply N.Div0.mod_mul | by apply N.div_mul].
Qed.

(** X12: the call reads [f] at the sample points [i / (q / p)] of the
    table indices only: two functions that agree there give the same
    table or the same error.  When [p] divides [q] and [q] is in the
    32-bit range, agreeing on the arguments below [p] is enough. *)
Theorem GenerateLUTviaFunction_ext c P f g p :
  m_params c = Some P →
  let q := lwe_q (GetLWEParams P) in
  ((∀ i, i < Native.to_uint32 q → f (i / (q / p)) p = g (i / (q / p)) p) →
     GenerateLUTviaFunction E c f p = GenerateLUTviaFunction E c g p) ∧
  (1 ≤ p → q mod p = 0 → q < Native.two32 →
     (∀ m, m < p → f m p = g m p) →
     GenerateLUTviaFunction E c f p = GenerateLUTviaFunction E c g p).
Proof.
  intros HP q.
  assert ((∀ i, i < Native.to_uint32 q → f (i / (q / p)) p = g (i / (q / p)) p) →
          GenerateLUTviaFunction E c f p = GenerateLUTviaFunction E c g p) as Hsamples.
  { intros Hagree. unfold GenerateLUTviaFunction. rewrite HP. simpl. fold q.
    destruct (negb _); [done|].
    unfold NativeInteger_div. destruct (p =? 0); simpl; [done|].
    apply LUT_fill_ext. intros k Hk. rewrite N.add_0_l. apply Hagree. lia. }
  split; [done|].
  intros Hp Hdiv Hq32 Hagree. apply Hsamples. intros i Hi.
  rewrite to_uint32_small in Hi by done.
  apply Hagree. apply N.Div0.div_lt_upper_bound.
  apply N.Div0.div_exact in Hdiv. lia.
Qed.

(** X13: the degenerate moduli.  A zero [p] is not rejected as an invalid
    modulus: it passes the power-of-two test and the call stops at the
    division [q / p].  A power of two [p] above [q] makes the interval
    zero, and the call stops at the division for the first index, before
    [f] is called.  When the narrowed table size is zero the call returns
    the empty table for every power of two [p], whatever [f] is. *)
Theorem GenerateLUTviaFunction_degenerate c P f p :
  m_params c = Some P →
  let q := lwe_q (GetLWEParams P) in
  (p = 0 → GenerateLUTviaFunction E c f p = Throw DivisionByZero) ∧
  (power_of_two p → q < p → Native.to_uint32 q ≠ 0 →
     GenerateLUTviaFunction E c f p = Throw DivisionByZero) ∧
  (power_of_two p → Native.to_uint32 q = 0 →
     GenerateLUTviaFunction E c f p = Ok []).
Proof.
  intros HP q. split_and!.
  - intros ->. unfold GenerateLUTviaFunction. by rewrite HP.
  - intros [k ->] Hlt Hsize.
    assert (1 ≤ 2 ^ k) as Hp.
    { pose proof (N.pow_nonzero 2 k). lia. }
    rewrite (GenerateLUTviaFunction_unfold E c P) by done. fold q.
    assert (RoundedLog_eqb (ceil_log2 (2 ^ k)) (floor_log2 (2 ^ k)) = true) as ->.
    { apply power_of_two_check; [lia | by exists k]. }
    simpl. rewrite (N.div_small q (2 ^ k)) by done.
    destruct (N.to_nat (Native.to_uint32 q)) as [|n] eqn:Hn; [lia|]. done.
  - intros [k ->] Hsize.
    assert (1 ≤ 2 ^ k) as Hp.
    { pose proof (N.pow_nonzero 2 k). lia. }
    rewrite (GenerateLUTviaFunction_unfold E c P) by done. fold q.
    assert (RoundedLog_eqb (ceil_log2 (2 ^ k)) (floor_log2 (2 ^ k)) = true) as ->.
    { apply power_of_two_check; [lia | by exists k]. }
    simpl. by rewrite Hsize.
Qed.

End MoreOnLookupTables.

Section Catalogue.

Variable E : Engine.

(** X14: the catalogue of the named-profile overload holds a row for each
    of its eighteen profiles, and in every row the lattice dimension does
    not exceed the ring dimension (half the cyclotomic order), the modulus
    [q] divides the cyclotomic order, and the gadget base is a power of
    two of at most [numberBits] bits.  The key-switch modulus of the LWE
    parameters is the intermediate prime for [TOY] and [SIGNED_MOD_TEST]
    and, for every other profile, the power of two of the row, which is
    above [q]; the Gaussian key distribution is that of [STD128_LMKCDEY]
    alone. *)
Theorem catalogue_invariants set :
  ∃ params, paramsMap set = Some params ∧
    let L := catalogue_lweparams E params in
    lwe_n L ≤ lwe_N L ∧
    2 * lwe_N L = cyclOrder params ∧
    cyclOrder params mod lwe_q L = 0 ∧
    power_of_two (gadgetBase params) ∧
    gadgetBase params ≤ 2 ^ numberBits params ∧
    lwe_Q L = catalogue_Q E params ∧
    (set = TOY ∨ set = SIGNED_MOD_TEST → lwe_qKS L = lwe_Q L) ∧
    (set ≠ TOY → set ≠ SIGNED_MOD_TEST →
       lwe_qKS L = modKS params ∧ power_of_two (modKS params) ∧ lwe_q L < lwe_qKS L) ∧
    (lwe_keyDist L = GAUSSIAN ↔ set = STD128_LMKCDEY).
Proof.
  destruct set; (eexists; split; [reflexivity|]);
    unfold catalogue_lweparams; simpl; split_and!;
    try done; try (by vm_compute);
    try (by intros [?|?]);
    try (intros _ _; split_and!; [done | | by vm_compute]);
    match goal with
    | |- power_of_two ?v => exists (N.log2 v); vm_compute; reflexivity
    end.
Qed.

End Catalogue.

(** * Further concrete runs *)

Import SampleMore.

Lemma GenerateBinFHEContext_outcome_run :
  (GenerateBinFHEContext E0 MEDIUM false 40 0 (other_method 3) false (fresh None)).2
    = Throw UnsupportedMethod ∧
  (GenerateBinFHEContext E0 MEDIUM false 40 0 GINX false (fresh None)).2
    = Throw UnsupportedProfile.
Proof.
  split.
  - apply (GenerateBinFHEContext_outcome E0 MEDIUM false 40 0%Z (other_method 3) false
             (fresh None)). discriminate.
  - apply (GenerateBinFHEContext_outcome E0 MEDIUM false 40 0%Z GINX false
             (fresh None)). split_and!; [reflexivity | discriminate | discriminate].
Defined.

Lemma regeneration_keeps_key_store_run :
  let c := context None (2 ^ 14) ∅ 7 {[ 2 ^ 14 := 7 ]} false in
  let r := GenerateBinFHEContext E0 STD128 false 20 0 GINX true c in
  r.2 = Ok tt ∧ m_BTKey r.1 = 7 ∧ m_BTKey_map r.1 = {[ 2 ^ 14 := 7 ]}.
Proof.
  intros c r.
  destruct (regeneration_keeps_key_store E0 c r.1 r.2) as [Hprofile _].
  destruct (Hprofile STD128 false 20 0%Z GINX true) as (HK & HM & _);
    [by vm_compute|].
  split_and!; [by vm_compute | exact HK | exact HM].
Defined.

Lemma generated_parameters_agree_run :
  let c' := (GenerateBinFHEContext_explicit E0 2 4 16 97 (319 # 100) 32 (2 ^ 14) 23
               GINX (fresh None)).1 in
  ∃ P S, m_params c' = Some P ∧ m_binfhescheme c' = Some S ∧
    lwe_N (GetLWEParams P) = rgsw_N (GetRingGSWParams P) ∧
    lwe_Q (GetLWEParams P) = rgsw_Q (GetRingGSWParams P) ∧
    lwe_q (GetLWEParams P) = rgsw_q (GetRingGSWParams P) ∧
    scheme_method S = rgsw_method (GetRingGSWParams P) ∧
    rgsw_keyDist (GetRingGSWParams P) = UNIFORM_TERNARY.
Proof.
  intros c'. apply (generated_parameters_agree E0 (fresh None) c').
  right. exists 2, 4, 16, 97, (319 # 100)%Q, 32, (2 ^ 14), 23, GINX.
  by vm_compute.
Defined.

(** A requested dimension of 4096 against a minimum of 2048. *)
Lemma profile_ring_dimension_run :
  let c' := (GenerateBinFHEContext E0 STD128 false 20 4096 GINX false (fresh None)).1 in
  ∃ P, m_params c' = Some P ∧
       lwe_N (GetLWEParams P) = 4096 ∧ lwe_q (GetLWEParams P) = 8192.
Proof.
  intros c'.
  destruct (profile_ring_dimension E0 STD128 false 20 4096%Z GINX false (fresh None) c')
    as (P & HP & HN & _ & Hq & _); [by vm_compute | reflexivity |].
  exists P. split; [exact HP|]. rewrite Hq, HN. by vm_compute.
Defined.

(** A stored key 9 survives a [BTKeyGen] with another secret key. *)
Lemma BTKeyGen_reuses_stored_key_run :
  let c := context None (2 ^ 14) ∅ 3 {[ 2 ^ 14 := 9 ]} false in
  BTKeyGen E0 5 tt c = (set_BTKey E0 9 c, Ok tt) ∧
  BTKeyGen E0 6 tt (set_BTKey E0 9 c) = (set_BTKey E0 9 c, Ok tt).
Proof.
  intros c.
  destruct (BTKeyGen_reuses_stored_key E0 5 tt c (small_params (2 ^ 14) ∅)
              eq_refl eq_refl) as [Hmemo Hagain].
  split.
  - apply Hmemo. by vm_compute.
  - apply (Hagain (set_BTKey E0 9 c)). apply Hmemo. by vm_compute.
Defined.

(** A sweep over the three bases leaves the entry under the base 5 alone. *)
Lemma BTKeyGen_keeps_other_entries_run :
  let c := context None (2 ^ 14) three_bases 0 {[ 5 := 1 ]} true in
  let c' := (BTKeyGen E0 5 tt c).1 in
  m_BTKey_map c' !! (2 ^ 14) = Some (m_BTKey c') ∧ m_BTKey_map c' !! 5 = Some 1.
Proof.
  intros c c'.
  destruct (BTKeyGen_keeps_other_entries E0 5 tt c c'
              (small_params (2 ^ 14) three_bases) (mkBinFHEScheme GINX)
              eq_refl eq_refl) as (Hactive & _ & Hkeep & _); [by vm_compute|].
  split; [exact Hactive|].
  etrans; [apply (Hkeep 5); [discriminate | right; by vm_compute] | by vm_compute].
Defined.

Lemma Bootstrap_after_BTKeyGen_run :
  let c' := (BTKeyGen E0 5 tt generated).1 in
  scheme_KeyGen E0 (mkBinFHEScheme GINX) (small_params (2 ^ 14) ∅) 5 tt
    = Ok (m_BTKey c') ∧
  Bootstrap E0 c' (mkLWECiphertext [3; 5] 7 16)
    = Ok (mkLWECiphertext [3; 5] (2 ^ 14 + 1) 16).
Proof.
  intros c'.
  destruct (Bootstrap_after_BTKeyGen E0 5 tt generated c' (small_params (2 ^ 14) ∅)
              (mkBinFHEScheme GINX) eq_refl eq_refl eq_refl (or_introl eq_refl))
    as [Hgen Hboot]; [by vm_compute|].
  split; [exact Hgen|]. rewrite Hboot. by vm_compute.
Defined.

(** Parameters for [logQ = 12] (base 2^27), a key, parameters for
    [logQ = 20] (base 2^18), and [BTKeyGen] again: the active key is empty. *)
Lemma BTKeyGen_after_regeneration_run :
  let c1 := (GenerateBinFHEContext E0 STD128 false 12 0 GINX false (fresh None)).1 in
  let c2 := (BTKeyGen E0 5 tt c1).1 in
  let c3 := (GenerateBinFHEContext E0 STD128 false 20 0 GINX false c2).1 in
  m_BTKey c2 = 2 ^ 27 + 1 ∧
  ∃ c4, BTKeyGen E0 5 tt c3 = (c4, Ok tt) ∧ m_BTKey c4 = 0.
Proof.
  intros c1 c2 c3. split; [by vm_compute|].
  destruct (BTKeyGen_after_regeneration E0 STD128 false 12 0%Z GINX
              STD128 false 20 0%Z GINX 5 tt 5 tt (fresh None) c1 c2 c3)
    as (c4 & Hrun & Hdiff & _); [by vm_compute..|].
  exists c4. split; [exact Hrun|]. apply Hdiff. by vm_compute.
Defined.

Lemma key_installers_overwrite_run :
  let c := context None (2 ^ 14) ∅ 3 {[ 2 ^ 14 := 9 ]} false in
  let c' := (BTKeyGenTest E0 X0 5 1 2 None tt c).1 in
  m_BTKey c' = 77 ∧ m_BTKey_map c' = {[ 2 ^ 14 := 77 ]} ∧
  BTKeyGen E0 6 tt c' = (c', Ok tt) ∧
  MultiPartyKeyGen E0 X0 0 5 1 2 None false c = (c, Throw (EngineFailure 1)).
Proof.
  intros c c'.
  destruct (key_installers_overwrite E0 X0 5 1 2 None tt 0 5 1 2 None false c
              (small_params (2 ^ 14) ∅) (mkBinFHEScheme GINX) eq_refl eq_refl)
    as [Htest Hmulti].
  destruct (Htest c' (Ok tt)) as (_ & HK & HM & _ & _ & _ & Hmemo); [by vm_compute|].
  destruct (Hmulti (MultiPartyKeyGen E0 X0 0 5 1 2 None false c).1
              (MultiPartyKeyGen E0 X0 0 5 1 2 None false c).2)
    as [Hthrow Hsame]; [by vm_compute|].
  split_and!; [exact HK | by vm_compute | by apply Hmemo | by vm_compute].
Defined.

(** Public-key encryption to small form under the modulus 5, which is not
    the large modulus 97: the ciphertext has dimension 4 and is switched. *)
Lemma Encrypt_modulus_and_output_run :
  let ct := mkLWECiphertext [8; 8; 8; 8] 1 5 in
  Encrypt_pk E0 X0 generated 8 0 1 SMALL_DIM 4 5
    = LWE_SwitchCTtoqn E0 (GetLWEParams (small_params (2 ^ 14) ∅)) (Some 0) ct.
Proof.
  intros ct.
  destruct (Encrypt_modulus_and_output E0 X0 generated (small_params (2 ^ 14) ∅)
              8 0 0 1%Z SMALL_DIM 4 5 eq_refl) as (_ & _ & Hsmall).
  destruct (Hsmall ct eq_refl) as [Hswitch _]; [by vm_compute|].
  apply Hswitch. left. by vm_compute.
Defined.

Lemma GenerateLUTviaFunction_entries_run :
  ∃ t, GenerateLUTviaFunction E0 generated (λ m p, m mod p) 4 = Ok t ∧
       length t = 16%nat ∧
       ∃ v, t !! 9%nat = Some v ∧ v < 16 ∧ v / (16 / 4) = 2.
Proof.
  destruct (GenerateLUTviaFunction_entries E0 generated (small_params (2 ^ 14) ∅)
              (λ m p, m mod p) 4) as (t & Hrun & Hlen & Hentry);
    [reflexivity | by exists 2 | by vm_compute | intros m; by apply N.mod_lt |].
  exists t. split; [exact Hrun|]. split; [exact Hlen|].
  destruct (Hentry 9) as (v & Hv & _ & Hlt & _ & Hdec); [by vm_compute|].
  exists v. split_and!; [exact Hv | exact Hlt | exact Hdec].
Defined.

Lemma GenerateLUTviaFunction_ext_run :
  GenerateLUTviaFunction E0 generated (λ m p, m mod p) 4
    = GenerateLUTviaFunction E0 generated (λ m p, if m <? p then m else 0) 4.
Proof.
  apply (GenerateLUTviaFunction_ext E0 generated (small_params (2 ^ 14) ∅)
           (λ m p, m mod p) (λ m p, if m <? p then m else 0) 4 eq_refl);
    [by vm_compute | by vm_compute | by vm_compute |].
  intros m Hm. simpl. rewrite N.mod_small by done.
  by destruct (N.ltb_spec m 4); [|lia].
Defined.

Lemma GenerateLUTviaFunction_degenerate_run :
  GenerateLUTviaFunction E0 generated (λ m p, m) 0 = Throw DivisionByZero ∧
  GenerateLUTviaFunction E0 generated (λ m p, m) 128 = Throw DivisionByZero.
Proof.
  destruct (GenerateLUTviaFunction_degenerate E0 generated (small_params (2 ^ 14) ∅)
              (λ m p, m) 0 eq_refl) as (Hzero & _ & _).
  destruct (GenerateLUTviaFunction_degenerate E0 generated (small_params (2 ^ 14) ∅)
              (λ m p, m) 128 eq_refl) as (_ & Habove & _).
  split; [by apply Hzero|].
  apply Habove; [by exists 7 | by vm_compute | by vm_compute].
Defined.

(** [STD256Q]: the lattice dimension equals the ring dimension 2048. *)
Lemma catalogue_invariants_run :
  ∃ params, paramsMap STD256Q = Some params ∧
    lwe_n (catalogue_lweparams E0 params) = 2048 ∧
    lwe_N (catalogue_lweparams E0 params) = 2048 ∧
    lwe_qKS (catalogue_lweparams E0 params) = 2 ^ 16.
Proof.
  destruct (catalogue_invariants E0 STD256Q)
    as (params & Hrow & _ & _ & _ & _ & _ & _ & _ & HqKS & _).
  exists params. split; [exact Hrow|].
  destruct (HqKS ltac:(discriminate) ltac:(discriminate)) as (-> & _ & _).
  injection Hrow as <-. by vm_compute.
Defined.
